(** * Piecewise-defined symbolic values over an incremental solver

    A shallow embedding of [nonlinear.py]: the class [Piecewise], its
    constructor, the breakpoint constructor [from_var], the lazy
    materialisation [val], the operators [__mul__] and [__add__], and the
    exclusivity / exhaustiveness query [verify].

    Python objects live in a store indexed by references; every method is a
    computation that threads the store and either returns or raises.  z3
    expressions are first-order terms; their unknowns range over the real
    numbers.  A Python [float] is finite and is named by the rational
    number that z3 reads from it.  The sum of two Python numbers of which
    one is a [float] is rounded by the host and can fail: the rounding is a
    parameter of the model, the failure of the conversion of a large [int]
    is part of it. *)

From stdpp Require Import gmap strings list pretty.
From Stdlib Require Import Ascii QArith Reals Qreals Lra.

Local Open Scope string_scope.
Local Open Scope list_scope.
Local Open Scope Z_scope.
Local Close Scope Q_scope.
Local Close Scope R_scope.

(** ** Python numbers *)

(** A numeric literal is an [int] or a [float]
    ([isinstance(other, float) or isinstance(other, int)]).  A [float] is
    finite and carries the rational number that z3 makes of it when it
    coerces the float to a numeral, the value of its decimal representation
    [str(x)]: [PyFloat (1 # 10)] is the float that Python writes 0.1. *)
Inductive PyNum :=
| PyInt (z : Z)
| PyFloat (q : Q).

(** The number that z3 reads from a Python number. *)
Definition num_Q (n : PyNum) : Q :=
  match n with
  | PyInt z => inject_Z z
  | PyFloat q => q
  end.

(** Python's [==] on two numbers, as [verify] uses it: on the [int] 0 of an
    empty sum and the [int] 1. *)
Definition num_eqb (a b : PyNum) : bool := Qeq_bool (num_Q a) (num_Q b).

(** ** z3 expressions *)

Module z3.

(** [ArithRef] and [BoolRef] terms, restricted to the operators that
    [nonlinear.py] builds. *)
Inductive ArithRef :=
| Real (name : string)                    (* z3.Real(name) *)
| NumVal (n : PyNum)                      (* a Python number coerced by z3 *)
| Add (a b : ArithRef)                    (* a + b *)
| Mul (a b : ArithRef)                    (* a * b *)
| If (c : BoolRef) (a b : ArithRef)       (* If(c, a, b) *)
with BoolRef :=
| BoolVal (b : bool)                      (* a Python bool coerced by z3 *)
| Lt (a b : ArithRef)                     (* a < b *)
| Ge (a b : ArithRef)                     (* a >= b *)
| Eq (a b : ArithRef)                     (* a == b *)
| Ne (a b : ArithRef)                     (* a != b *)
| And (a b : BoolRef)                     (* And(a, b) *)
| Implies (a b : BoolRef).                (* Implies(a, b) *)

(** The three answers of [check()]. *)
Inductive CheckSatResult := sat | unsat | unknown.

Definition CheckSatResult_eqb (a b : CheckSatResult) : bool :=
  match a, b with
  | sat, sat | unsat, unsat | unknown, unknown => true
  | _, _ => false
  end.

(** An assignment of rational numbers to the unknowns, and the value of a
    term under it. *)
Definition Model := string -> Q.

Fixpoint eval (rho : Model) (e : ArithRef) : Q :=
  match e with
  | Real x => rho x
  | NumVal n => num_Q n
  | Add a b => (eval rho a + eval rho b)%Q
  | Mul a b => (eval rho a * eval rho b)%Q
  | If c a b => if holds rho c then eval rho a else eval rho b
  end
with holds (rho : Model) (b : BoolRef) : bool :=
  match b with
  | BoolVal v => v
  | Lt a b => negb (Qle_bool (eval rho b) (eval rho a))
  | Ge a b => Qle_bool (eval rho b) (eval rho a)
  | Eq a b => Qeq_bool (eval rho a) (eval rho b)
  | Ne a b => negb (Qeq_bool (eval rho a) (eval rho b))
  | And a b => holds rho a && holds rho b
  | Implies a b => implb (holds rho a) (holds rho b)
  end.

(** The unknowns made by [z3.Real] range over the real numbers: a model
    of the solver assigns a real number to every unknown.  The rational
    assignments above are the real assignments with rational values
    (lemma [real_of_rational]). *)
Definition RealModel := string -> R.

Definition Rltb (a b : R) : bool := if Rlt_dec a b then true else false.
Definition Rleb (a b : R) : bool := if Rle_dec a b then true else false.
Definition Reqb (a b : R) : bool := if Req_dec_T a b then true else false.

Fixpoint evalR (rho : RealModel) (e : ArithRef) : R :=
  match e with
  | Real x => rho x
  | NumVal n => Q2R (num_Q n)
  | Add a b => (evalR rho a + evalR rho b)%R
  | Mul a b => (evalR rho a * evalR rho b)%R
  | If c a b => if holdsR rho c then evalR rho a else evalR rho b
  end
with holdsR (rho : RealModel) (b : BoolRef) : bool :=
  match b with
  | BoolVal v => v
  | Lt a b => Rltb (evalR rho a) (evalR rho b)
  | Ge a b => Rleb (evalR rho b) (evalR rho a)
  | Eq a b => Reqb (evalR rho a) (evalR rho b)
  | Ne a b => negb (Reqb (evalR rho a) (evalR rho b))
  | And a b => holdsR rho a && holdsR rho b
  | Implies a b => implb (holdsR rho a) (holdsR rho b)
  end.

End z3.

Import z3.

(** ** Python values that flow through the operators *)

(** [Union[ArithRef, float, int]]: a plain number or a z3 term. *)
Inductive Value :=
| Lit (n : PyNum)
| Sym (e : ArithRef).

(** z3 coerces a Python number that meets a term into a numeral. *)
Definition coerce (v : Value) : ArithRef :=
  match v with
  | Lit n => NumVal n
  | Sym e => e
  end.

(** [a != n] for a number [n]: a Python [bool] on two numbers, a z3 [Ne]
    node otherwise. *)
Definition py_ne (a : Value) (n : PyNum) : BoolRef :=
  match a with
  | Lit x => BoolVal (negb (num_eqb x n))
  | Sym e => Ne e (NumVal n)
  end.

(** The builtin [sum(xs)] on a list of terms: a left fold of [+] that
    starts from the int 0.  The right operand of every [+] is a term, so
    every [+] is z3's: it coerces the left operand and builds an [Add]
    node. *)
Definition py_sum (xs : list ArithRef) : Value :=
  fold_left (fun acc e => Sym (Add (coerce acc) e)) xs (Lit (PyInt 0)).

(** The condition-value list of a [Piecewise]. *)
Abbreviation CondVals := (list (BoolRef * Value)) (only parsing).

(** ** Exceptions and outcomes *)

(** The pieces of a formatted message: literal text and the two
    interpolations of the f-string in [verify]. *)
Inductive MsgPart :=
| Text (s : string)
| FmtResult (r : CheckSatResult)
| FmtVals (vs : CondVals).

Inductive Exn :=
| AssertionError (msg : list MsgPart)
| IndexError
| TypeError (msg : string)
| OverflowError
| Z3Exception
| InvalidRef.   (* a reference outside the store; no Python counterpart *)

Inductive Outcome (A : Type) :=
| Ret (a : A)
| Raise (e : Exn).
Arguments Ret {A} a.
Arguments Raise {A} e.

(** ** Python's [+] on numbers *)

(** An [int] that meets a [float] is converted to a [float] first.  The
    conversion rounds to the nearest float and raises OverflowError when
    that is out of range: from 2^1024 - 2^970 on, half-way between the
    largest float and 2^1024. *)
Definition float_overflow (z : Z) : bool := 2 ^ 1024 - 2 ^ 970 <=? Z.abs z.

Section Arithmetic.

(** The float arithmetic of the host, which the model does not compute:
    [float_add a b] is what becomes of the sum of two numbers, one of them
    at least a [float] and an [int] among them converted, once the sum is
    rounded to a float and z3 reads the float.  It is [inr q] when the
    rounded sum is finite and z3 reads the rational [q] from it, and
    [inl e] when the equation with the sum raises [e] (z3 reads no number
    from an infinite sum). *)
Variable float_add : PyNum -> PyNum -> Exn + Q.

(** Python's [a + b] on two numbers: [int + int] is exact, a [float]
    operand makes the sum a [float]. *)
Definition num_add (a b : PyNum) : Exn + PyNum :=
  match a, b with
  | PyInt x, PyInt y => inr (PyInt (x + y))
  | PyInt x, PyFloat _ | PyFloat _, PyInt x =>
      if float_overflow x then inl OverflowError
      else match float_add a b with
           | inl e => inl e
           | inr q => inr (PyFloat q)
           end
  | PyFloat _, PyFloat _ =>
      match float_add a b with
      | inl e => inl e
      | inr q => inr (PyFloat q)
      end
  end.

(** [a + b]: Python arithmetic on two numbers, a z3 [Add] node as soon as
    one side is a term. *)
Definition py_add (a b : Value) : Exn + Value :=
  match a, b with
  | Lit x, Lit y =>
      match num_add x y with
      | inl e => inl e
      | inr n => inr (Lit n)
      end
  | _, _ => inr (Sym (Add (coerce a) (coerce b)))
  end.

End Arithmetic.

(** ** Python sequences *)

Definition len {A} (l : list A) : Z := Z.of_nat (length l).

(** [l[i]]: a negative index counts from the end; [None] stands for
    IndexError. *)
Definition getitem {A} (l : list A) (i : Z) : option A :=
  if (0 <=? i) && (i <? len l) then l !! Z.to_nat i
  else if (- len l <=? i) && (i <? 0) then l !! Z.to_nat (len l + i)
  else None.

(** [range(n)]. *)
Definition range (n : Z) : list Z := Z.of_nat <$> seq 0 (Z.to_nat n).

(** ** The backend model *)

Definition ref := nat.

Module MySolver.

(** The calls a solver has served, oldest first. *)
Inductive Event :=
| EvPush
| EvAdd (c : BoolRef)
| EvCheck (r : CheckSatResult)
| EvPop.

(** Modelled from the spec: the class [MySolver] of module [my_solver],
    which is not among the sources.  It is the incremental constraint
    store of the spec's external interfaces: [add] registers a constraint
    in the current scope, [push] and [pop] save and restore the scope
    stack, [check] decides the constraints in scope.  [marks] holds, for
    every open scope, the number of assertions present when it was pushed;
    [trace] records the calls served. *)
Record t := mk {
  assertions : list BoolRef;
  marks : list nat;
  trace : list Event
}.

(** Modelled from the spec: [MySolver()], a store with no constraint and
    no open scope. *)
Definition new : t := mk [] [] [].

Definition depth (sv : t) : nat := length (marks sv).

(** Modelled from the spec: [add(constraint)] registers the constraint in
    the current scope. *)
Definition add (c : BoolRef) (sv : t) : t :=
  mk (assertions sv ++ [c]) (marks sv) (trace sv ++ [EvAdd c]).

(** Modelled from the spec: [push()] opens a scope. *)
Definition push (sv : t) : t :=
  mk (assertions sv) (length (assertions sv) :: marks sv)
     (trace sv ++ [EvPush]).

(** Modelled from the spec: [pop()] closes the innermost scope and drops
    the constraints registered in it; without an open scope it is an
    error of the backend. *)
Definition pop (sv : t) : option t :=
  match marks sv with
  | [] => None
  | m :: ms => Some (mk (take m (assertions sv)) ms (trace sv ++ [EvPop]))
  end.

(** Modelled from the spec: [check()] leaves the constraints as they are;
    the answer [r] comes from the engine. *)
Definition checked (r : CheckSatResult) (sv : t) : t :=
  mk (assertions sv) (marks sv) (trace sv ++ [EvCheck r]).

End MySolver.

(** ** Piecewise instances and the store *)

Module Piecewise.

(** The attributes set by [__init__]. *)
Record t := mk {
  s : ref;
  vals : CondVals;
  id : nat;
  name : string;
  aux_id : nat;
  val_def : option ArithRef
}.

End Piecewise.

(** The state of the process: the class attribute [Piecewise.id], the
    solvers and the [Piecewise] instances that have been created, and the
    names of the unknowns in z3's global context, those that the class has
    made through [z3.Real] and those that its clients have. *)
Record World := mkWorld {
  Piecewise_id : nat;
  solvers : gmap ref MySolver.t;
  instances : gmap ref Piecewise.t;
  z3_names : gset string
}.

Definition initial_world : World := mkWorld 0 ∅ ∅ ∅.

Definition set_Piecewise_id (n : nat) (w : World) : World :=
  mkWorld n (solvers w) (instances w) (z3_names w).
Definition set_solvers (m : gmap ref MySolver.t) (w : World) : World :=
  mkWorld (Piecewise_id w) m (instances w) (z3_names w).
Definition set_instances (m : gmap ref Piecewise.t) (w : World) : World :=
  mkWorld (Piecewise_id w) (solvers w) m (z3_names w).
Definition set_z3_names (ns : gset string) (w : World) : World :=
  mkWorld (Piecewise_id w) (solvers w) (instances w) ns.

(** ** Computations: a store that survives exceptions *)

Definition M (A : Type) : Type := World -> Outcome A * World.

Definition ret {A} (a : A) : M A := fun w => (Ret a, w).

Definition raise {A} (e : Exn) : M A := fun w => (Raise e, w).

Definition bind {A B} (m : M A) (k : A -> M B) : M B :=
  fun w =>
    match m w with
    | (Ret a, w') => k a w'
    | (Raise e, w') => (Raise e, w')
    end.

Declare Scope py_scope.
Delimit Scope py_scope with py.
Notation "x <- m ;; k" := (bind m (fun x => k))
  (at level 100, m at next level, right associativity) : py_scope.
Notation "m ;; k" := (bind m (fun _ => k))
  (at level 100, right associativity) : py_scope.
Local Open Scope py_scope.

(** [assert cond, msg]. *)
Definition py_assert (cond : bool) (msg : list MsgPart) : M unit :=
  if cond then ret tt else raise (AssertionError msg).

(** A value or the exception in its place. *)
Definition lift {A} (r : Exn + A) : M A :=
  match r with
  | inl e => raise e
  | inr a => ret a
  end.

(** [l[i]] as a computation. *)
Definition index {A} (l : list A) (i : Z) : M A :=
  match getitem l i with
  | Some x => ret x
  | None => raise IndexError
  end.

(** [for x in l: body(x)]. *)
Fixpoint for_each {A} (l : list A) (body : A -> M unit) : M unit :=
  match l with
  | [] => ret tt
  | x :: l' => body x ;; for_each l' body
  end.

(** [for x in l: acc = body(acc, x)], for a loop that rebinds a local. *)
Fixpoint for_fold {A S} (l : list A) (acc : S) (body : S -> A -> M S) : M S :=
  match l with
  | [] => ret acc
  | x :: l' => acc' <- body acc x ;; for_fold l' acc' body
  end.

(** Attribute reads and writes through a reference. *)
Definition get_instance (self : ref) : M Piecewise.t :=
  fun w =>
    match instances w !! self with
    | Some p => (Ret p, w)
    | None => (Raise InvalidRef, w)
    end.

Definition put_instance (self : ref) (p : Piecewise.t) : M unit :=
  fun w => (Ret tt, set_instances (<[self := p]> (instances w)) w).

Definition get_solver (l : ref) : M MySolver.t :=
  fun w =>
    match solvers w !! l with
    | Some sv => (Ret sv, w)
    | None => (Raise InvalidRef, w)
    end.

Definition put_solver (l : ref) (sv : MySolver.t) : M unit :=
  fun w => (Ret tt, set_solvers (<[l := sv]> (solvers w)) w).

(** [z3.Real(name)]: the name is interned in the global context and the
    constant of that name is returned. *)
Definition z3_Real (n : string) : M ArithRef :=
  fun w => (Ret (Real n), set_z3_names ({[n]} ∪ z3_names w) w).

(** ** Calls into the backend *)

(** [MySolver()] allocates a solver at an unused reference. *)
Definition MySolver_new : M ref :=
  fun w =>
    let l := fresh (dom (solvers w)) in
    (Ret l, set_solvers (<[l := MySolver.new]> (solvers w)) w).

Definition solver_add (l : ref) (c : BoolRef) : M unit :=
  sv <- get_solver l ;; put_solver l (MySolver.add c sv).

Definition solver_push (l : ref) : M unit :=
  sv <- get_solver l ;; put_solver l (MySolver.push sv).

Definition solver_pop (l : ref) : M unit :=
  sv <- get_solver l ;;
  match MySolver.pop sv with
  | Some sv' => put_solver l sv'
  | None => raise Z3Exception
  end.

(** ** Generated symbol names *)

(** [f"auxPiecewiseVal_{self.id}"]. *)
Definition val_name (id : nat) : string :=
  "auxPiecewiseVal_" +:+ pretty id.

(** [f"auxPiecewiseMul_{self.name}_{self.id},{self.aux_id}"]. *)
Definition mul_name (name : string) (id aux_id : nat) : string :=
  "auxPiecewiseMul_" +:+ name +:+ "_" +:+ pretty id +:+ "," +:+ pretty aux_id.

(** [f"auxPiecewiseAdd_{self.id},{self.aux_id}"]. *)
Definition add_name (id aux_id : nat) : string :=
  "auxPiecewiseAdd_" +:+ pretty id +:+ "," +:+ pretty aux_id.

(** The names an instance can hand to [z3.Real] over its lifetime. *)
Definition generates (p : Piecewise.t) (n : string) : Prop :=
  n = val_name (Piecewise.id p)
  \/ (exists k, n = mul_name (Piecewise.name p) (Piecewise.id p) k)
  \/ (exists k, n = add_name (Piecewise.id p) k).

(** ** The class Piecewise *)

Definition set_aux_id (k : nat) (p : Piecewise.t) : Piecewise.t :=
  Piecewise.mk (Piecewise.s p) (Piecewise.vals p) (Piecewise.id p)
               (Piecewise.name p) k (Piecewise.val_def p).

Definition set_val_def (h : option ArithRef) (p : Piecewise.t) : Piecewise.t :=
  Piecewise.mk (Piecewise.s p) (Piecewise.vals p) (Piecewise.id p)
               (Piecewise.name p) (Piecewise.aux_id p) h.

(** The body of [__init__], on a newly allocated instance. *)
Definition __init__ (s : ref) (name : string) (vals : CondVals) : M ref :=
  fun w =>
    let self := fresh (dom (instances w)) in
    let p := Piecewise.mk s vals (Piecewise_id w) name 0 None in
    (Ret self,
     set_Piecewise_id (Piecewise_id w + 1)
       (set_instances (<[self := p]> (instances w)) w)).

(** Actual arguments of a constructor call. *)
Inductive PyObj :=
| ObjSolver (l : ref)
| ObjStr (s : string)
| ObjVals (vs : CondVals).

(** The call [Piecewise(args...)]: Python binds the positional arguments to
    the parameters [s, name, vals] of [__init__] and raises TypeError,
    before the body runs, when their number is not three.  Three arguments
    are taken at the types of the signature. *)
Definition Piecewise_call (args : list PyObj) : M ref :=
  match args with
  | [a; b; c] =>
      match a, b, c with
      | ObjSolver s, ObjStr name, ObjVals vals => __init__ s name vals
      | _, _, _ => raise (TypeError "argument outside the signature")
      end
  | _ => raise (TypeError "wrong number of positional arguments")
  end.

(** [v for v in vals if v[1] is not None]. *)
Definition drop_None (vals : list (BoolRef * option Value)) : CondVals :=
  omap (fun cv => match snd cv with
                  | Some v => Some (fst cv, v)
                  | None => None
                  end) vals.

(** [from_var], lines 49 to 57: the assertion on the lengths, the three
    groups of intervals and the removal of the [None] entries. *)
Definition from_var_vals (var : ArithRef) (breaks : list PyNum)
    (range_vals : list (option Value)) : M CondVals :=
  py_assert (len range_vals =? len breaks + 1) [] ;;
  b0 <- index breaks 0 ;;
  r0 <- index range_vals 0 ;;
  vals <- for_fold (range (len breaks - 1)) [(Lt var (NumVal b0), r0)]
            (fun vals i =>
               bi <- index breaks i ;;
               bi1 <- index breaks (i + 1) ;;
               ri1 <- index range_vals (i + 1) ;;
               ret (vals ++ [(And (Ge var (NumVal bi)) (Lt var (NumVal bi1)),
                              ri1)])) ;;
  bl <- index breaks (-1) ;;
  rl <- index range_vals (-1) ;;
  ret (drop_None (vals ++ [(Ge var (NumVal bl), rl)])).

(** [from_var]: the list above, then [return Piecewise(s, vals)], a call
    with two positional arguments. *)
Definition from_var (var : ArithRef) (breaks : list PyNum)
    (range_vals : list (option Value)) (s : ref) : M ref :=
  vals <- from_var_vals var breaks range_vals ;;
  Piecewise_call [ObjSolver s; ObjVals vals].

(** [val]. *)
Definition val (self : ref) : M ArithRef :=
  p <- get_instance self ;;
  match Piecewise.val_def p with
  | Some h => ret h
  | None =>
      h <- z3_Real (val_name (Piecewise.id p)) ;;
      put_instance self (set_val_def (Some h) p) ;;
      for_each (Piecewise.vals p)
        (fun cv => solver_add (Piecewise.s p)
                     (Implies (fst cv) (Eq h (coerce (snd cv))))) ;;
      ret h
  end.

(** [__mul__].  With a number, [self.val() * other] is z3's product of the
    handle and the numeral.  With a term [e], every [v * other] is z3's
    product as well, whatever [v] is: [Mul] of [v], coerced, and [e]. *)
Definition __mul__ (self : ref) (other : Value) : M ArithRef :=
  match other with
  | Lit k => h <- val self ;; ret (Mul h (NumVal k))
  | Sym e =>
      p <- get_instance self ;;
      aux <- z3_Real (mul_name (Piecewise.name p) (Piecewise.id p)
                               (Piecewise.aux_id p)) ;;
      put_instance self (set_aux_id (Piecewise.aux_id p + 1) p) ;;
      for_each (Piecewise.vals p)
        (fun cv => solver_add (Piecewise.s p)
                     (Implies (fst cv) (Eq aux (Mul (coerce (snd cv)) e)))) ;;
      ret aux
  end.

(** [__add__].  The sum [v + other] is computed first; on two numbers it is
    Python's and can raise, before anything is registered for the pair. *)
Definition __add__ (float_add : PyNum -> PyNum -> Exn + Q)
    (self : ref) (other : Value) : M ArithRef :=
  p <- get_instance self ;;
  aux <- z3_Real (add_name (Piecewise.id p) (Piecewise.aux_id p)) ;;
  put_instance self (set_aux_id (Piecewise.aux_id p + 1) p) ;;
  for_each (Piecewise.vals p)
    (fun cv => sum <- lift (py_add float_add (snd cv) other) ;;
               solver_add (Piecewise.s p)
                 (Implies (fst cv) (Eq aux (coerce sum)))) ;;
  ret aux.

(** [sum([If(c, 1, 0) for (c, _) in self.vals])]. *)
Definition num_sat (vals : CondVals) : Value :=
  py_sum ((fun cv => If (fst cv) (NumVal (PyInt 1)) (NumVal (PyInt 0)))
            <$> vals).

(** The message of the assertion in [verify]. *)
Definition verify_msg (satisfiable : CheckSatResult) (vals : CondVals)
  : list MsgPart :=
  [Text "Unable to check that options are mutually exclusive and exhaustive. Got ";
   FmtResult satisfiable; Text " for "; FmtVals vals].

Section Engine.

(** The decision procedure behind [check()]: an answer for every list of
    constraints in scope. *)
Variable z3_check : list BoolRef -> CheckSatResult.

(** The float arithmetic of the host. *)
Variable float_add : PyNum -> PyNum -> Exn + Q.

(** Modelled from the spec: [check()] asks the engine about all the
    constraints in the current scope stack. *)
Definition solver_check (l : ref) : M CheckSatResult :=
  sv <- get_solver l ;;
  let r := z3_check (MySolver.assertions sv) in
  put_solver l (MySolver.checked r sv) ;;
  ret r.

(** [verify]. *)
Definition verify (self : ref) (s : option ref) : M unit :=
  s <- match s with
       | None => MySolver_new
       | Some l => ret l
       end ;;
  p <- get_instance self ;;
  let num_sat := num_sat (Piecewise.vals p) in
  solver_push s ;;
  solver_add s (py_ne num_sat (PyInt 1)) ;;
  satisfiable <- solver_check s ;;
  solver_pop s ;;
  py_assert (negb (CheckSatResult_eqb satisfiable unsat))
            (verify_msg satisfiable (Piecewise.vals p)).

(** One call of a client into the module. *)
Inductive Call :=
| CallMySolver
| CallPiecewise (args : list PyObj)
| CallFromVar (var : ArithRef) (breaks : list PyNum)
              (range_vals : list (option Value)) (s : ref)
| CallVal (self : ref)
| CallMul (self : ref) (other : Value)
| CallAdd (self : ref) (other : Value)
| CallVerify (self : ref) (s : option ref).

Definition exec (c : Call) (w : World) : World :=
  match c with
  | CallMySolver => snd (MySolver_new w)
  | CallPiecewise args => snd (Piecewise_call args w)
  | CallFromVar var breaks range_vals s =>
      snd (from_var var breaks range_vals s w)
  | CallVal self => snd (val self w)
  | CallMul self other => snd (__mul__ self other w)
  | CallAdd self other => snd (__add__ float_add self other w)
  | CallVerify self s => snd (verify self s w)
  end.

(** The world after a sequence of calls, whatever each of them returned
    or raised. *)
Definition run (cs : list Call) (w : World) : World :=
  fold_left (fun w c => exec c w) cs w.

(** The worlds a client can reach from an empty process. *)
Definition reachable (w : World) : Prop :=
  exists cs, w = run cs initial_world.

End Engine.

(** ** Vocabulary of the statements *)

(** The solver after the constraints [cs] have been registered one by one. *)
Definition registered (cs : list BoolRef) (sv : MySolver.t) : MySolver.t :=
  MySolver.mk (MySolver.assertions sv ++ cs) (MySolver.marks sv)
              (MySolver.trace sv ++ (MySolver.EvAdd <$> cs)).

(** One implication [condition => handle == rhs(value)] per pair. *)
Definition implications (h : ArithRef) (rhs : Value -> ArithRef)
    (vals : CondVals) : list BoolRef :=
  (fun cv => Implies (fst cv) (Eq h (rhs (snd cv)))) <$> vals.

(** What the loop of [__add__] gets through: the implications of the pairs
    in order up to the first pair whose sum raises, and that exception. *)
Fixpoint add_constraints (float_add : PyNum -> PyNum -> Exn + Q)
    (aux : ArithRef) (other : Value) (vals : CondVals)
  : list BoolRef * option Exn :=
  match vals with
  | [] => ([], None)
  | cv :: vals' =>
      match py_add float_add (snd cv) other with
      | inl e => ([], Some e)
      | inr sum =>
          let r := add_constraints float_add aux other vals' in
          (Implies (fst cv) (Eq aux (coerce sum)) :: fst r, snd r)
      end
  end.

(** The implication of [__add__] for a pair whose sum can be computed. *)
Definition add_implication (float_add : PyNum -> PyNum -> Exn + Q)
    (aux : ArithRef) (other : Value) (cv : BoolRef * Value) (c : BoolRef)
  : Prop :=
  exists sum, py_add float_add (snd cv) other = inr sum
              /\ c = Implies (fst cv) (Eq aux (coerce sum)).

(** Every sum [value + operand] of the list can be computed. *)
Definition sums_defined (float_add : PyNum -> PyNum -> Exn + Q)
    (other : Value) (vals : CondVals) : Prop :=
  forall c v, (c, v) ∈ vals -> exists sum, py_add float_add v other = inr sum.

(** A sum without float arithmetic: of two ints, or with a term on a side. *)
Definition exact_sum (a b : Value) : bool :=
  match a, b with
  | Lit (PyInt _), Lit (PyInt _) => true
  | Lit _, Lit _ => false
  | _, _ => true
  end.

(** The world after a method has interned the name [n], stored [p'] for
    the instance [self] and registered [cs] with the instance's solver,
    which was [sv]. *)
Definition after_register (self : ref) (p' : Piecewise.t) (n : string)
    (cs : list BoolRef) (sv : MySolver.t) (w : World) : World :=
  mkWorld (Piecewise_id w)
          (<[Piecewise.s p' := registered cs sv]> (solvers w))
          (<[self := p']> (instances w))
          ({[n]} ∪ z3_names w).

(** The number of conditions of the list that hold under an assignment. *)
Definition true_conditions (rho : Model) (vals : CondVals) : nat :=
  length (filter (fun cv => holds rho (fst cv) = true) vals).

Definition true_conditionsR (rho : RealModel) (vals : CondVals) : nat :=
  length (filter (fun cv => holdsR rho (fst cv) = true) vals).

(** The proof context [verify] works in: the solver it is given, or a new
    one at an unused reference. *)
Definition proof_context (s : option ref) (w : World)
  : option (ref * MySolver.t) :=
  match s with
  | Some l => (fun sv => (l, sv)) <$> solvers w !! l
  | None => Some (fresh (dom (solvers w)), MySolver.new)
  end.

(** The query of [verify]: the count of true conditions is not 1. *)
Definition verify_query (vals : CondVals) : BoolRef :=
  py_ne (num_sat vals) (PyInt 1).

(** The interval tests of the spec for ascending breakpoints b1 .. bk, in
    order: var < b1, b1 <= var < b2, ..., var >= bk. *)
Fixpoint intervals_from (var : ArithRef) (b : PyNum) (bs : list PyNum)
  : list BoolRef :=
  match bs with
  | [] => [Ge var (NumVal b)]
  | b' :: bs' =>
      And (Ge var (NumVal b)) (Lt var (NumVal b')) :: intervals_from var b' bs'
  end.

Definition interval_tests (var : ArithRef) (breaks : list PyNum)
  : list BoolRef :=
  match breaks with
  | [] => []
  | b :: bs => Lt var (NumVal b) :: intervals_from var b bs
  end.

(** The bounded intervals alone: b1 <= var < b2, ..., b(k-1) <= var < bk. *)
Fixpoint bounded_intervals (var : ArithRef) (b : PyNum) (bs : list PyNum)
  : list BoolRef :=
  match bs with
  | [] => []
  | b' :: bs' =>
      And (Ge var (NumVal b)) (Lt var (NumVal b'))
      :: bounded_intervals var b' bs'
  end.

(** Characters of a string. *)
Fixpoint occurs (c : ascii) (s : string) : Prop :=
  match s with
  | EmptyString => False
  | String c' s' => c = c' \/ occurs c s'
  end.

Definition is_digit (c : ascii) : Prop :=
  c = "0"%char \/ c = "1"%char \/ c = "2"%char \/ c = "3"%char
  \/ c = "4"%char \/ c = "5"%char \/ c = "6"%char \/ c = "7"%char
  \/ c = "8"%char \/ c = "9"%char.

Definition digits (s : string) : Prop := forall c, occurs c s -> is_digit c.

(** A name that an instance has already handed to [z3.Real]. *)
Definition issued (p : Piecewise.t) (n : string) : Prop :=
  (n = val_name (Piecewise.id p) /\ Piecewise.val_def p <> None)
  \/ (exists k : nat, (k < Piecewise.aux_id p)%nat
        /\ (n = mul_name (Piecewise.name p) (Piecewise.id p) k
            \/ n = add_name (Piecewise.id p) k)).

(** A name that no instance can generate, whatever its id and its display
    name: it has none of the three formats. *)
Definition foreign (n : string) : Prop := forall p, ~ generates p n.

(** What every call of the class keeps true, whatever the solvers hold:
    the ids of the instances are distinct and below the class counter, a
    cached handle is the unknown named after the id, and every name of the
    z3 context is foreign or has been issued by an instance.  It holds of
    the empty process, and a client keeps it who uses the solvers as it
    likes and makes unknowns of its own under foreign names. *)
Record consistent (w : World) : Prop := {
  ids_below : forall l p,
    instances w !! l = Some p -> (Piecewise.id p < Piecewise_id w)%nat;
  ids_distinct : forall l l' p p',
    instances w !! l = Some p -> instances w !! l' = Some p' ->
    Piecewise.id p = Piecewise.id p' -> l = l';
  cached_named : forall l p h,
    instances w !! l = Some p -> Piecewise.val_def p = Some h ->
    h = Real (val_name (Piecewise.id p));
  names_owned : forall n,
    n ∈ z3_names w ->
    foreign n \/ exists l p, instances w !! l = Some p /\ issued p n
}.

(** The part of the world that the solvers do not hold, and the
    computations that leave it, or the whole world, alone. *)
Definition core (w : World) : nat * gmap ref Piecewise.t * gset string :=
  (Piecewise_id w, instances w, z3_names w).

Definition solver_only {A} (m : M A) : Prop :=
  forall w, core (snd (m w)) = core w.

Definition pure {A} (m : M A) : Prop := forall w, snd (m w) = w.

(** Satisfaction of a list of constraints by a rational assignment, and
    engines that never give a wrong definite answer about those. *)
Definition satisfies (rho : Model) (cs : list BoolRef) : Prop :=
  Forall (fun c => holds rho c = true) cs.

Definition sound (check : list BoolRef -> CheckSatResult) : Prop :=
  forall cs,
    (check cs = sat -> exists rho, satisfies rho cs)
    /\ (check cs = unsat -> forall rho, ~ satisfies rho cs).

(** Satisfaction by a real assignment, and engines whose answer [unsat] is
    right: no real assignment meets the constraints. *)
Definition satisfiesR (rho : RealModel) (cs : list BoolRef) : Prop :=
  Forall (fun c => holdsR rho c = true) cs.

Definition unsat_sound (check : list BoolRef -> CheckSatResult) : Prop :=
  forall cs, check cs = unsat -> forall rho, ~ satisfiesR rho cs.

(** The real assignment with the values of a rational one. *)
Definition real_of (rho : Model) : RealModel := fun x => Q2R (rho x).

(** Structural equality of terms. *)
Definition PyNum_eqb (a b : PyNum) : bool :=
  match a, b with
  | PyInt x, PyInt y => Z.eqb x y
  | PyFloat x, PyFloat y =>
      Z.eqb (Qnum x) (Qnum y) && Pos.eqb (Qden x) (Qden y)
  | _, _ => false
  end.

Fixpoint ArithRef_eqb (a b : ArithRef) : bool :=
  match a, b with
  | Real x, Real y => String.eqb x y
  | NumVal x, NumVal y => PyNum_eqb x y
  | Add a1 a2, Add b1 b2 => ArithRef_eqb a1 b1 && ArithRef_eqb a2 b2
  | Mul a1 a2, Mul b1 b2 => ArithRef_eqb a1 b1 && ArithRef_eqb a2 b2
  | If c a1 a2, If d b1 b2 =>
      BoolRef_eqb c d && ArithRef_eqb a1 b1 && ArithRef_eqb a2 b2
  | _, _ => false
  end
with BoolRef_eqb (a b : BoolRef) : bool :=
  match a, b with
  | BoolVal x, BoolVal y => Bool.eqb x y
  | Lt a1 a2, Lt b1 b2 => ArithRef_eqb a1 b1 && ArithRef_eqb a2 b2
  | Ge a1 a2, Ge b1 b2 => ArithRef_eqb a1 b1 && ArithRef_eqb a2 b2
  | Eq a1 a2, Eq b1 b2 => ArithRef_eqb a1 b1 && ArithRef_eqb a2 b2
  | Ne a1 a2, Ne b1 b2 => ArithRef_eqb a1 b1 && ArithRef_eqb a2 b2
  | And a1 a2, And b1 b2 => BoolRef_eqb a1 b1 && BoolRef_eqb a2 b2
  | Implies a1 a2, Implies b1 b2 => BoolRef_eqb a1 b1 && BoolRef_eqb a2 b2
  | _, _ => false
  end.

Scheme ArithRef_mut := Induction for ArithRef Sort Prop
  with BoolRef_mut := Induction for BoolRef Sort Prop.
Combined Scheme term_mutind from ArithRef_mut, BoolRef_mut.

(** Whether the unknown [n] occurs in a term. *)
Fixpoint mentions (n : string) (e : ArithRef) : bool :=
  match e with
  | Real x => String.eqb x n
  | NumVal _ => false
  | Add a b => mentions n a || mentions n b
  | Mul a b => mentions n a || mentions n b
  | If c a b => mentions_cond n c || mentions n a || mentions n b
  end
with mentions_cond (n : string) (b : BoolRef) : bool :=
  match b with
  | BoolVal _ => false
  | Lt a b => mentions n a || mentions n b
  | Ge a b => mentions n a || mentions n b
  | Eq a b => mentions n a || mentions n b
  | Ne a b => mentions n a || mentions n b
  | And a b => mentions_cond n a || mentions_cond n b
  | Implies a b => mentions_cond n a || mentions_cond n b
  end.

(** The calls on an instance that can make an unknown. *)
Inductive Op :=
| OpVal
| OpMul (other : Value)
| OpAdd (other : Value).

Definition perform (float_add : PyNum -> PyNum -> Exn + Q)
    (op : Op) (self : ref) : M ArithRef :=
  match op with
  | OpVal => val self
  | OpMul other => __mul__ self other
  | OpAdd other => __add__ float_add self other
  end.

(** The call [op] on [self] in the world [w] generates the symbol name
    [n]: the term it returns is built on the unknown [n], or the call adds
    [n] to the z3 context. *)
Definition yields (float_add : PyNum -> PyNum -> Exn + Q)
    (op : Op) (self : ref) (w : World) (n : string) : Prop :=
  (exists h, fst (perform float_add op self w) = Ret h
             /\ mentions n h = true)
  \/ (n ∈ z3_names (snd (perform float_add op self w)) /\ n ∉ z3_names w).

(** ** Worked examples *)

Module Demo.

Definition x : ArithRef := Real "x".

(** x < 0 gives 1, x >= 0 gives 2: exclusive and exhaustive. *)
Definition sign_vals : CondVals :=
  [(Lt x (NumVal (PyInt 0)), Lit (PyInt 1));
   (Ge x (NumVal (PyInt 0)), Lit (PyInt 2))].

(** An engine that knows one fact: the query of [verify] for [sign_vals]
    has no model.  It answers [unknown] on everything else. *)
Definition engine (cs : list BoolRef) : CheckSatResult :=
  match cs with
  | [c] => if BoolRef_eqb c (verify_query sign_vals) then unsat else unknown
  | _ => unknown
  end.

(** A float arithmetic to run the examples with: the exact sum.  It is
    the host's on the sums that the examples make, 1 + 0.5 and 2 + 0.5,
    which need no rounding and which Python writes 1.5 and 2.5; it is not
    the host's where the host rounds, and no property below depends on it
    there. *)
Definition exact_add (a b : PyNum) : Exn + Q := inr (Qred (num_Q a + num_Q b)).

(** A solver at reference 0 and, at reference 0, the instance
    [Piecewise(s, "p", sign_vals)]. *)
Definition setup : list Call :=
  [CallMySolver;
   CallPiecewise [ObjSolver 0%nat; ObjStr "p"; ObjVals sign_vals]].

Definition world : World := run engine exact_add setup initial_world.

(** A second instance with the same display name. *)
Definition world2 : World :=
  run engine exact_add
    [CallPiecewise [ObjSolver 0%nat; ObjStr "p"; ObjVals sign_vals]] world.

(** The instance of [world] after [val()]. *)
Definition world_val : World := run engine exact_add [CallVal 0%nat] world.

(** x < 0 alone leaves x >= 0 uncovered. *)
Definition gap_vals : CondVals := [(Lt x (NumVal (PyInt 0)), Lit (PyInt 1))].

(** A solver at reference 0 and the instance [Piecewise(s, "q", gap_vals)]. *)
Definition world_gap : World :=
  run engine exact_add
    [CallMySolver;
     CallPiecewise [ObjSolver 0%nat; ObjStr "q"; ObjVals gap_vals]]
    initial_world.

(** x < 0 gives 1, x >= 0 gives 10^400, an int beyond the range of the
    floats. *)
Definition huge_vals : CondVals :=
  [(Lt x (NumVal (PyInt 0)), Lit (PyInt 1));
   (Ge x (NumVal (PyInt 0)), Lit (PyInt (10 ^ 400)))].

(** A solver at reference 0 and the instance [Piecewise(s, "h", huge_vals)]. *)
Definition world_huge : World :=
  run engine exact_add
    [CallMySolver;
     CallPiecewise [ObjSolver 0%nat; ObjStr "h"; ObjVals huge_vals]]
    initial_world.

(** A solver of a client at reference 0: it holds the constraint x >= 0 in
    an open scope; and the instance [Piecewise(s, "p", sign_vals)] on it. *)
Definition ambient : MySolver.t :=
  MySolver.add (Ge x (NumVal (PyInt 0))) (MySolver.push MySolver.new).

Definition world_ambient : World :=
  mkWorld 1 {[0%nat := ambient]}
          {[0%nat := Piecewise.mk 0%nat sign_vals 0%nat "p" 0%nat None]}
          {["x"]}.

End Demo.

(** ** Vocabulary of the further properties *)

(** The unknown [n] occurs neither in the conditions nor in the values of a
    condition-value list. *)
Definition unmentioned (n : string) (vals : CondVals) : Prop :=
  forall c v, (c, v) ∈ vals ->
    mentions_cond n c = false /\ mentions n (coerce v) = false.

(** The assignment that gives [r] to the unknown [n] and agrees with [rho]
    on every other unknown. *)
Definition assignR (n : string) (r : R) (rho : RealModel) : RealModel :=
  fun x => if String.eqb x n then r else rho x.

(** A constraint that pins the unknown [n] for a pair: under the condition
    of the pair, [n] equals a term, and neither mentions [n]. *)
Definition pins (n : string) (cv : BoolRef * Value) (c : BoolRef) : Prop :=
  exists t, c = Implies (fst cv) (Eq (Real n) t)
            /\ mentions_cond n (fst cv) = false
            /\ mentions n t = false.

(** Breakpoints in ascending order, ties allowed. *)
Fixpoint ascending_from (b : PyNum) (bs : list PyNum) : bool :=
  match bs with
  | [] => true
  | b' :: bs' => Qle_bool (num_Q b) (num_Q b') && ascending_from b' bs'
  end.

Definition ascending (breaks : list PyNum) : bool :=
  match breaks with
  | [] => true
  | b :: bs => ascending_from b bs
  end.

(** The number of tests of a list that hold under an assignment. *)
Definition count_trueR (rho : RealModel) (tests : list BoolRef) : nat :=
  length (filter (fun c => holdsR rho c = true) tests).

(** An instance later in its life: the solver, the list, the id and the
    name are what they were, the auxiliary counter has not gone down and a
    cached handle is still cached. *)
Definition evolves (p p' : Piecewise.t) : Prop :=
  Piecewise.s p' = Piecewise.s p
  /\ Piecewise.vals p' = Piecewise.vals p
  /\ Piecewise.id p' = Piecewise.id p
  /\ Piecewise.name p' = Piecewise.name p
  /\ (Piecewise.aux_id p <= Piecewise.aux_id p')%nat
  /\ (forall h, Piecewise.val_def p = Some h -> Piecewise.val_def p' = Some h).

(** A solver later in its life: the same open scopes, and the constraints
    it had, in place, possibly followed by more. *)
Definition grows (sv sv' : MySolver.t) : Prop :=
  MySolver.marks sv' = MySolver.marks sv
  /\ MySolver.assertions sv `prefix_of` MySolver.assertions sv'.

(** Every solver of [w] is still there in [w'], grown. *)
Definition solvers_grow (w w' : World) : Prop :=
  forall l sv, solvers w !! l = Some sv ->
    exists sv', solvers w' !! l = Some sv' /\ grows sv sv'.

(** What one call can do to the class counter, the instances and the z3
    context: nothing, rewrite one instance in place, or construct one. *)
Definition step (w w' : World) : Prop :=
  core w' = core w
  \/ (exists self p p' ns,
        instances w !! self = Some p /\ evolves p p'
        /\ core w' = (Piecewise_id w, <[self := p']> (instances w), ns))
  \/ (exists s name vals, w' = snd (__init__ s name vals w)).

(** The ids in use are the numbers below the class counter, one instance
    each. *)
Definition dense (w : World) : Prop :=
  Piecewise_id w = size (instances w)
  /\ forall i, (i < Piecewise_id w)%nat ->
       exists l p, instances w !! l = Some p /\ Piecewise.id p = i.

Module Sample.

(** The instance of [Demo.world], as [__init__] leaves it. *)
Definition p0 : Piecewise.t :=
  Piecewise.mk 0%nat Demo.sign_vals 0%nat "p" 0%nat None.

(** An assignment with x = 5, and one with x the square root of 2. *)
Definition rho5 : RealModel := fun _ => 5%R.

Definition rho_sqrt2 : RealModel := fun _ => sqrt 2.

End Sample.

(** * Properties *)

(** ** Generated names are told apart by their ids *)

Lemma append_cons x a b : String x a +:+ b = String x (a +:+ b).
Proof. reflexivity. Qed.

Lemma append_nil b : "" +:+ b = b.
Proof. reflexivity. Qed.

Ltac push_append := rewrite ?append_cons, ?append_nil in *.

Lemma append_assoc (a b c : string) : (a +:+ b) +:+ c = a +:+ (b +:+ c).
Proof. induction a as [|x a IH]; push_append; [reflexivity | by f_equal]. Qed.

Lemma occurs_append c a b : occurs c (a +:+ b) <-> occurs c a \/ occurs c b.
Proof.
  induction a as [|x a IH]; push_append; simpl.
  - tauto.
  - rewrite IH. tauto.
Qed.

(** Two strings cut at a separator that their tails do not contain agree
    part by part. *)
Lemma split_last_sep c a1 a2 d1 d2 :
  ~ occurs c d1 -> ~ occurs c d2 ->
  a1 +:+ String c d1 = a2 +:+ String c d2 -> a1 = a2 /\ d1 = d2.
Proof.
  intros H1 H2. revert a2.
  induction a1 as [|x a1 IH]; intros [|y a2] Heq; push_append.
  - by injection Heq.
  - injection Heq as _ ->. destruct H1.
    apply occurs_append. right. by left.
  - injection Heq as _ <-. destruct H2.
    apply occurs_append. right. by left.
  - injection Heq as -> Heq. by destruct (IH _ Heq) as [-> ->].
Qed.

Lemma pretty_N_char_digit x : is_digit (pretty_N_char x).
Proof. unfold pretty_N_char, is_digit. repeat case_match; tauto. Qed.

Lemma pretty_N_go_digits x s : digits s -> digits (pretty_N_go x s).
Proof.
  revert s. induction (N.lt_wf_0 x) as [x _ IH]; intros s Hs.
  assert (x = 0 \/ 0 < x)%N as [->|Hpos] by lia.
  - by rewrite pretty_N_go_0.
  - rewrite pretty_N_go_step by done. apply IH.
    + by apply N.div_lt.
    + intros c [->|Hc]; [apply pretty_N_char_digit | by apply Hs].
Qed.

Lemma pretty_nat_digits (n : nat) : digits (pretty n).
Proof.
  unfold pretty, pretty_nat, pretty, pretty_N. case_decide.
  - intros c [->|[]]. unfold is_digit. tauto.
  - apply pretty_N_go_digits. intros c [].
Qed.

Lemma digits_no_comma s : digits s -> ~ occurs ","%char s.
Proof. intros Hs Hc. apply Hs in Hc. unfold is_digit in Hc. intuition discriminate. Qed.

Lemma digits_no_underscore s : digits s -> ~ occurs "_"%char s.
Proof. intros Hs Hc. apply Hs in Hc. unfold is_digit in Hc. intuition discriminate. Qed.

Lemma val_name_inj i j : val_name i = val_name j -> i = j.
Proof.
  unfold val_name. intros H. apply String.app_inj in H.
  by apply (inj pretty) in H.
Qed.

Lemma add_name_inj i a j b : add_name i a = add_name j b -> i = j /\ a = b.
Proof.
  unfold add_name. intros H. apply String.app_inj in H. push_append.
  apply split_last_sep in H as [Hi Ha];
    [| apply digits_no_comma, pretty_nat_digits ..].
  split; by apply (inj pretty).
Qed.

Lemma mul_name_inj n i a m j b :
  mul_name n i a = mul_name m j b -> n = m /\ i = j /\ a = b.
Proof.
  assert (Hre : forall (u : string) (x y : nat),
             u +:+ "_" +:+ pretty x +:+ "," +:+ pretty y
             = (u +:+ String "_" (pretty x)) +:+ String "," (pretty y)).
  { intros. by rewrite append_assoc. }
  unfold mul_name. intros H. apply String.app_inj in H.
  rewrite !Hre in H.
  apply split_last_sep in H as [H Ha];
    [| apply digits_no_comma, pretty_nat_digits ..].
  apply split_last_sep in H as [Hn Hi];
    [| apply digits_no_underscore, pretty_nat_digits ..].
  repeat split; try done; by apply (inj pretty).
Qed.

Lemma val_name_not_mul i n j b : val_name i <> mul_name n j b.
Proof. unfold val_name, mul_name. push_append. congruence. Qed.

Lemma val_name_not_add i j b : val_name i <> add_name j b.
Proof. unfold val_name, add_name. push_append. congruence. Qed.

Lemma mul_name_not_add n i a j b : mul_name n i a <> add_name j b.
Proof. unfold mul_name, add_name. push_append. congruence. Qed.

(** Instances with different ids generate disjoint sets of names. *)
Lemma generates_disjoint p1 p2 n :
  Piecewise.id p1 <> Piecewise.id p2 -> generates p1 n -> ~ generates p2 n.
Proof.
  intros Hid [->|[[k ->]|[k ->]]] [H|[[k' H]|[k' H]]].
  - by apply val_name_inj in H.
  - by apply val_name_not_mul in H.
  - by apply val_name_not_add in H.
  - symmetry in H. by apply val_name_not_mul in H.
  - apply mul_name_inj in H. tauto.
  - by apply mul_name_not_add in H.
  - symmetry in H. by apply val_name_not_add in H.
  - symmetry in H. by apply mul_name_not_add in H.
  - apply add_name_inj in H. tauto.
Qed.

(** ** Computations that keep the world, or all of it but the solvers *)

Lemma pure_ret {A} (a : A) : pure (ret a).
Proof. by intros w. Qed.

Lemma pure_raise {A} e : pure (@raise A e).
Proof. by intros w. Qed.

Lemma pure_bind {A B} (m : M A) (k : A -> M B) :
  pure m -> (forall a, pure (k a)) -> pure (bind m k).
Proof.
  intros Hm Hk w. unfold bind. specialize (Hm w).
  destruct (m w) as [[a|e] w']; simpl in *; subst; [apply Hk | done].
Qed.

Lemma pure_lift {A} (r : Exn + A) : pure (lift r).
Proof. destruct r; [apply pure_raise | apply pure_ret]. Qed.

Lemma pure_py_assert c msg : pure (py_assert c msg).
Proof. destruct c; [apply pure_ret | apply pure_raise]. Qed.

Lemma pure_index {A} (l : list A) i : pure (index l i).
Proof. unfold index. destruct (getitem l i); [apply pure_ret | apply pure_raise]. Qed.

Lemma pure_for_fold {A S} (l : list A) (acc : S) body :
  (forall acc x, pure (body acc x)) -> pure (for_fold l acc body).
Proof.
  intros Hb. revert acc. induction l as [|x l IH]; intros acc; simpl.
  - apply pure_ret.
  - apply pure_bind; [apply Hb | apply IH].
Qed.

Lemma pure_solver_only {A} (m : M A) : pure m -> solver_only m.
Proof. intros H w. by rewrite H. Qed.

Lemma solver_only_bind {A B} (m : M A) (k : A -> M B) :
  solver_only m -> (forall a, solver_only (k a)) -> solver_only (bind m k).
Proof.
  intros Hm Hk w. unfold bind. specialize (Hm w).
  destruct (m w) as [[a|e] w']; simpl in *; [by rewrite Hk | done].
Qed.

Lemma solver_only_get_solver l : solver_only (get_solver l).
Proof. intros w. unfold get_solver. by destruct (solvers w !! l). Qed.

Lemma solver_only_put_solver l sv : solver_only (put_solver l sv).
Proof. by intros w. Qed.

Lemma solver_only_get_instance l : solver_only (get_instance l).
Proof. intros w. unfold get_instance. by destruct (instances w !! l). Qed.

Lemma solver_only_MySolver_new : solver_only MySolver_new.
Proof. by intros w. Qed.

Lemma solver_only_add l c : solver_only (solver_add l c).
Proof.
  apply solver_only_bind; [apply solver_only_get_solver |].
  intros sv. apply solver_only_put_solver.
Qed.

Lemma solver_only_push l : solver_only (solver_push l).
Proof.
  apply solver_only_bind; [apply solver_only_get_solver |].
  intros sv. apply solver_only_put_solver.
Qed.

Lemma solver_only_pop l : solver_only (solver_pop l).
Proof.
  apply solver_only_bind; [apply solver_only_get_solver |].
  intros sv. destruct (MySolver.pop sv);
    [apply solver_only_put_solver | apply pure_solver_only, pure_raise].
Qed.

Lemma solver_only_check z3_check l : solver_only (solver_check z3_check l).
Proof.
  apply solver_only_bind; [apply solver_only_get_solver |].
  intros sv. apply solver_only_bind; [apply solver_only_put_solver |].
  intros _. apply pure_solver_only, pure_ret.
Qed.

Lemma solver_only_for_each {A} (l : list A) body :
  (forall x, solver_only (body x)) -> solver_only (for_each l body).
Proof.
  intros Hb. induction l as [|x l IH]; simpl.
  - apply pure_solver_only, pure_ret.
  - apply solver_only_bind; [apply Hb | intros _; apply IH].
Qed.

(** A loop that only talks to the solvers, then [return h]. *)
Lemma solver_only_loop {A} (xs : list A) body (h : ArithRef) :
  (forall x, solver_only (body x)) -> solver_only (for_each xs body ;; ret h).
Proof.
  intros Hb. apply solver_only_bind.
  - by apply solver_only_for_each.
  - intros _. apply pure_solver_only, pure_ret.
Qed.

(** The registration loop of [val] and [__mul__]. *)
Lemma solver_only_register {A} l (f : A -> BoolRef) (xs : list A) (h : ArithRef) :
  solver_only (for_each xs (fun x => solver_add l (f x)) ;; ret h).
Proof. apply solver_only_loop. intros x. apply solver_only_add. Qed.

(** The loop of [__add__]. *)
Lemma solver_only_sums {A B} l (r : A -> Exn + B) (f : A -> B -> BoolRef)
    (xs : list A) (h : ArithRef) :
  solver_only (for_each xs (fun x => y <- lift (r x) ;; solver_add l (f x y)) ;;
               ret h).
Proof.
  apply solver_only_loop. intros x. apply solver_only_bind.
  - apply pure_solver_only, pure_lift.
  - intros y. apply solver_only_add.
Qed.

Lemma solver_only_verify z3_check self s : solver_only (verify z3_check self s).
Proof.
  unfold verify. apply solver_only_bind.
  { destruct s; [apply pure_solver_only, pure_ret | apply solver_only_MySolver_new]. }
  intros l. apply solver_only_bind; [apply solver_only_get_instance |].
  intros p. apply solver_only_bind; [apply solver_only_push |].
  intros _. apply solver_only_bind; [apply solver_only_add |].
  intros _. apply solver_only_bind; [apply solver_only_check |].
  intros r. apply solver_only_bind; [apply solver_only_pop |].
  intros _. apply pure_solver_only, pure_py_assert.
Qed.

(** ** The registration loop, in closed form *)

Lemma registered_nil sv : registered [] sv = sv.
Proof. destruct sv. unfold registered. simpl. by rewrite !app_nil_r. Qed.

Lemma registered_cons c cs sv :
  registered cs (MySolver.add c sv) = registered (c :: cs) sv.
Proof. unfold registered, MySolver.add. simpl. by rewrite <- !app_assoc. Qed.

Lemma for_each_solver_add {A} (f : A -> BoolRef) l (xs : list A) sv w :
  solvers w !! l = Some sv ->
  for_each xs (fun x => solver_add l (f x)) w
  = (Ret tt, set_solvers (<[l := registered (f <$> xs) sv]> (solvers w)) w).
Proof.
  revert sv w. induction xs as [|x xs IH]; intros sv w Hl; simpl.
  - rewrite registered_nil, insert_id by done. by destruct w.
  - unfold bind at 1. unfold solver_add, bind, get_solver. rewrite Hl. simpl.
    rewrite (IH (MySolver.add (f x) sv)) by apply lookup_insert_eq.
    unfold set_solvers. simpl.
    by rewrite insert_insert_eq, registered_cons.
Qed.

(** The loop of [__add__] registers the implications of the pairs up to
    the first sum that raises. *)
Lemma for_each_sums float_add l aux other (vals : CondVals) : forall sv w,
  solvers w !! l = Some sv ->
  for_each vals
    (fun cv => sum <- lift (py_add float_add (snd cv) other) ;;
               solver_add l (Implies (fst cv) (Eq aux (coerce sum)))) w
  = (match snd (add_constraints float_add aux other vals) with
     | None => Ret tt
     | Some e => Raise e
     end,
     set_solvers
       (<[l := registered (fst (add_constraints float_add aux other vals)) sv]>
          (solvers w)) w).
Proof.
  induction vals as [|cv vals IH]; intros sv w Hl; simpl.
  - rewrite registered_nil, insert_id by done. by destruct w.
  - unfold bind at 1. unfold bind at 1.
    destruct (py_add float_add (snd cv) other) as [e|sum]; simpl.
    + rewrite registered_nil, insert_id by done. by destruct w.
    + unfold solver_add, bind at 1, get_solver. rewrite Hl. simpl.
      rewrite (IH (MySolver.add (Implies (fst cv) (Eq aux (coerce sum))) sv))
        by apply lookup_insert_eq.
      unfold set_solvers. simpl.
      by rewrite insert_insert_eq, registered_cons.
Qed.

(** ** The methods on a live instance, in closed form *)

Section Methods.

Variables (self : ref) (p : Piecewise.t) (sv : MySolver.t) (w : World).
Hypothesis Hself : instances w !! self = Some p.
Hypothesis Hsolver : solvers w !! Piecewise.s p = Some sv.

Lemma val_first :
  Piecewise.val_def p = None ->
  let h := Real (val_name (Piecewise.id p)) in
  val self w
  = (Ret h,
     after_register self (set_val_def (Some h) p) (val_name (Piecewise.id p))
       (implications h coerce (Piecewise.vals p)) sv w).
Proof.
  intros Hnone h. unfold val, bind at 1, get_instance.
  rewrite Hself, Hnone. unfold bind, z3_Real, put_instance.
  by rewrite (for_each_solver_add _ _ _ sv).
Qed.

Lemma val_cached h :
  Piecewise.val_def p = Some h -> val self w = (Ret h, w).
Proof.
  intros Hsome. unfold val, bind, get_instance. by rewrite Hself, Hsome.
Qed.

Lemma mul_symbolic e :
  let aux := Real (mul_name (Piecewise.name p) (Piecewise.id p)
                            (Piecewise.aux_id p)) in
  __mul__ self (Sym e) w
  = (Ret aux,
     after_register self (set_aux_id (Piecewise.aux_id p + 1) p)
       (mul_name (Piecewise.name p) (Piecewise.id p) (Piecewise.aux_id p))
       (implications aux (fun v => Mul (coerce v) e) (Piecewise.vals p))
       sv w).
Proof.
  intros aux. unfold __mul__, bind at 1, get_instance.
  rewrite Hself. unfold bind, z3_Real, put_instance.
  by rewrite (for_each_solver_add _ _ _ sv).
Qed.

(** [__add__] always interns the name and advances the counter; it
    returns the auxiliary unless a sum raises. *)
Lemma add_any float_add other :
  let aux := Real (add_name (Piecewise.id p) (Piecewise.aux_id p)) in
  let r := add_constraints float_add aux other (Piecewise.vals p) in
  __add__ float_add self other w
  = (match snd r with
     | None => Ret aux
     | Some e => Raise e
     end,
     after_register self (set_aux_id (Piecewise.aux_id p + 1) p)
       (add_name (Piecewise.id p) (Piecewise.aux_id p)) (fst r) sv w).
Proof.
  intros aux r. unfold __add__, bind at 1, get_instance. rewrite Hself.
  unfold bind at 1, z3_Real. unfold bind at 1, put_instance.
  unfold bind at 1.
  rewrite (for_each_sums _ _ _ _ _ sv) by done. fold aux r.
  by destruct (snd r).
Qed.

End Methods.

(** ** [verify], in closed form *)

Section Verify.

Variable z3_check : list BoolRef -> CheckSatResult.

(** The solver once [verify] is done with it: the same constraints and
    scopes, four more calls served. *)
Lemma verify_closed self s p l sv w :
  instances w !! self = Some p ->
  proof_context s w = Some (l, sv) ->
  let q := verify_query (Piecewise.vals p) in
  let r := z3_check (MySolver.assertions sv ++ [q]) in
  verify z3_check self s w
  = (if CheckSatResult_eqb r unsat
     then Raise (AssertionError (verify_msg r (Piecewise.vals p)))
     else Ret tt,
     set_solvers
       (<[l := MySolver.mk (MySolver.assertions sv) (MySolver.marks sv)
                 (MySolver.trace sv ++
                  [MySolver.EvPush; MySolver.EvAdd q;
                   MySolver.EvCheck r; MySolver.EvPop])]> (solvers w)) w).
Proof.
  intros Hself Hctx q r. subst q r. unfold verify_query.
  set (q := py_ne (num_sat (Piecewise.vals p)) (PyInt 1)).
  set (r := z3_check (MySolver.assertions sv ++ [q])).
  assert (exists w0, (match s with None => MySolver_new | Some l0 => ret l0 end) w
                     = (Ret l, w0)
                     /\ solvers w0 !! l = Some sv
                     /\ instances w0 = instances w
                     /\ (forall x, set_solvers (<[l := x]> (solvers w0)) w0
                                   = set_solvers (<[l := x]> (solvers w)) w))
    as (w0 & Hs & Hl & Hi & Hput).
  { destruct s as [l0|]; simpl in Hctx.
    - destruct (solvers w !! l0) as [sv0|] eqn:E; simplify_eq/=.
      by exists w.
    - simplify_eq/=. eexists. split; [reflexivity|]. simpl.
      split; [apply lookup_insert_eq|]. split; [done|].
      intros x. unfold set_solvers. simpl. by rewrite insert_insert_eq. }
  unfold verify, bind at 1. rewrite Hs.
  unfold bind at 1, get_instance. rewrite Hi, Hself.
  unfold bind at 1, solver_push, bind at 1, get_solver. rewrite Hl.
  unfold put_solver at 1.
  unfold bind at 1, solver_add, bind at 1, get_solver.
  simpl solvers. rewrite lookup_insert_eq. unfold put_solver at 1.
  unfold bind at 1, solver_check, bind at 1, get_solver.
  simpl solvers. rewrite lookup_insert_eq.
  unfold bind at 1, put_solver at 1, ret at 1.
  unfold bind at 1, solver_pop, bind at 1, get_solver.
  simpl solvers. rewrite lookup_insert_eq.
  simpl MySolver.pop. unfold put_solver.
  unfold set_solvers at 1 2 3 4. simpl.
  rewrite !insert_insert_eq, take_app_length.
  fold q. fold r. rewrite <- !app_assoc. simpl.
  specialize (Hput (MySolver.mk (MySolver.assertions sv) (MySolver.marks sv)
                 (MySolver.trace sv ++
                  [MySolver.EvPush; MySolver.EvAdd q;
                   MySolver.EvCheck r; MySolver.EvPop]))).
  unfold set_solvers in Hput. simpl in Hput. rewrite Hput.
  unfold py_assert. by destruct (CheckSatResult_eqb r unsat).
Qed.

End Verify.

(** ** What the query of [verify] means *)

Lemma true_conditions_cons rho cv vals :
  true_conditions rho (cv :: vals)
  = ((if holds rho (fst cv) then 1 else 0) + true_conditions rho vals)%nat.
Proof.
  unfold true_conditions. rewrite filter_cons.
  destruct (holds rho (fst cv)); by case_decide.
Qed.

Lemma eval_sum_from rho vals acc :
  (eval rho (coerce
     (fold_left (fun acc e => Sym (Add (coerce acc) e))
        ((fun cv => If (fst cv) (NumVal (PyInt 1)) (NumVal (PyInt 0))) <$> vals)
        acc))
   == eval rho (coerce acc) + inject_Z (Z.of_nat (true_conditions rho vals)))%Q.
Proof.
  revert acc. induction vals as [|cv vals IH]; intros acc; simpl fold_left.
  - unfold true_conditions. simpl. ring.
  - rewrite IH, true_conditions_cons. simpl coerce. simpl eval.
    rewrite Nat2Z.inj_add, inject_Z_plus.
    destruct (holds rho (fst cv)); simpl; ring.
Qed.

(** The term summed by [verify] denotes the number of true conditions. *)
Lemma num_sat_counts rho vals :
  (eval rho (coerce (num_sat vals))
   == inject_Z (Z.of_nat (true_conditions rho vals)))%Q.
Proof. unfold num_sat, py_sum. rewrite eval_sum_from. simpl. ring. Qed.

Lemma holds_py_ne rho v n :
  holds rho (py_ne v n) = negb (Qeq_bool (eval rho (coerce v)) (num_Q n)).
Proof. by destruct v. Qed.

Lemma Qeq_bool_inject_Z a b : Qeq_bool (inject_Z a) (inject_Z b) = (a =? b)%Z.
Proof.
  destruct (Z.eqb_spec a b) as [->|Hne].
  - apply Qeq_bool_iff. reflexivity.
  - apply not_true_is_false. intros H. apply Qeq_bool_iff in H.
    apply Hne. by apply inject_Z_injective.
Qed.

(** The query holds exactly when the number of true conditions is not 1. *)
Lemma holds_verify_query rho vals :
  holds rho (verify_query vals) = negb (true_conditions rho vals =? 1)%nat.
Proof.
  unfold verify_query. rewrite holds_py_ne. f_equal. simpl num_Q.
  rewrite (Qeqb_comp _ _ (num_sat_counts rho vals) _ _ (Qeq_refl _)).
  rewrite Qeq_bool_inject_Z.
  destruct (Nat.eqb_spec (true_conditions rho vals) 1) as [->|Hne]; [done|].
  apply Z.eqb_neq. lia.
Qed.

(** ** Structural equality decides equality of terms *)

Lemma PyNum_eqb_eq a b : PyNum_eqb a b = true -> a = b.
Proof.
  destruct a as [x|[xn xd]], b as [y|[yn yd]]; simpl; try discriminate.
  - intros H. apply Z.eqb_eq in H. by subst.
  - intros H. apply andb_prop in H as [Hn Hd].
    apply Z.eqb_eq in Hn. apply Pos.eqb_eq in Hd. by subst.
Qed.

Lemma term_eqb_eq :
  (forall a b, ArithRef_eqb a b = true -> a = b)
  /\ (forall a b, BoolRef_eqb a b = true -> a = b).
Proof.
  apply term_mutind; intros;
    match goal with
    | H : ArithRef_eqb _ ?y = true |- _ => destruct y
    | H : BoolRef_eqb _ ?y = true |- _ => destruct y
    end; simpl in *; try discriminate;
    repeat match goal with
           | H : _ && _ = true |- _ => apply andb_prop in H as [? ?]
           end;
    f_equal; auto using PyNum_eqb_eq, eqb_prop.
  by apply String.eqb_eq.
Qed.

(** ** [from_var], in closed form *)

Lemma index_nat {A} (l : list A) (i : nat) x w :
  l !! i = Some x -> index l (Z.of_nat i) w = (Ret x, w).
Proof.
  intros Hx. pose proof (lookup_lt_Some _ _ _ Hx) as Hlt.
  unfold index, getitem, len.
  replace (0 <=? Z.of_nat i) with true by (symmetry; apply Z.leb_le; lia).
  replace (Z.of_nat i <? Z.of_nat (length l)) with true
    by (symmetry; apply Z.ltb_lt; lia).
  simpl. by rewrite Nat2Z.id, Hx.
Qed.

Lemma index_last {A} (l : list A) x w :
  last l = Some x -> index l (-1) w = (Ret x, w).
Proof.
  intros Hx. rewrite last_lookup in Hx.
  pose proof (lookup_lt_Some _ _ _ Hx) as Hlt.
  unfold index, getitem, len. simpl (0 <=? -1). simpl (-1 <? 0).
  replace (- Z.of_nat (length l) <=? -1) with true
    by (symmetry; apply Z.leb_le; lia).
  simpl.
  replace (Z.to_nat (Z.of_nat (length l) + -1)) with (pred (length l)) by lia.
  by rewrite Hx.
Qed.

Lemma index_empty {A} i w : index (@nil A) i w = (Raise IndexError, w).
Proof.
  unfold index, getitem. rewrite !lookup_nil. by repeat case_match.
Qed.

(** The loop of [from_var] from index [length pre] on, when the breakpoints
    still ahead are [b :: bs] and the candidate values ahead are [rs]. *)
Lemma from_var_loop var bs :
  forall (b : PyNum) (pre : list PyNum) (rpre rs : list (option Value))
         (acc : list (BoolRef * option Value)) w,
  length rpre = S (length pre) -> (length bs <= length rs)%nat ->
  for_fold (Z.of_nat <$> seq (length pre) (length bs)) acc
    (fun vals i =>
       bi <- index (pre ++ b :: bs) i ;;
       bi1 <- index (pre ++ b :: bs) (i + 1) ;;
       ri1 <- index (rpre ++ rs) (i + 1) ;;
       ret (vals ++ [(And (Ge var (NumVal bi)) (Lt var (NumVal bi1)), ri1)])) w
  = (Ret (acc ++ zip (bounded_intervals var b bs) rs), w).
Proof.
  induction bs as [|b' bs IH]; intros b pre rpre rs acc w Hpre Hrs.
  - simpl. by rewrite app_nil_r.
  - destruct rs as [|r rs]; [simpl in Hrs; lia|].
    simpl length. simpl seq. rewrite fmap_cons. simpl for_fold.
    unfold bind at 1. unfold bind at 1.
    rewrite (index_nat _ _ b) by (by apply list_lookup_middle).
    unfold bind at 1.
    replace (Z.of_nat (length pre) + 1) with (Z.of_nat (S (length pre))) by lia.
    rewrite (index_nat _ _ b').
    2:{ rewrite (cons_middle b), app_assoc.
        apply list_lookup_middle. rewrite length_app. simpl. lia. }
    unfold bind at 1.
    rewrite (index_nat _ _ r) by (by apply list_lookup_middle).
    unfold ret at 1.
    specialize (IH b' (pre ++ [b]) (rpre ++ [r]) rs
                  (acc ++ [(And (Ge var (NumVal b)) (Lt var (NumVal b')), r)]) w).
    rewrite !length_app in IH. simpl in IH.
    rewrite <- !app_assoc in IH. simpl in IH.
    replace (length pre + 1)%nat with (S (length pre)) in IH by lia.
    by rewrite IH by (simpl in Hrs; lia).
Qed.

(** The bounded intervals followed by the last, unbounded one are the
    intervals of the spec after the first. *)
Lemma bounded_then_last var bs : forall b (rs : list (option Value)),
  length rs = S (length bs) ->
  exists lb lr, last (b :: bs) = Some lb /\ last rs = Some lr
    /\ zip (bounded_intervals var b bs) rs ++ [(Ge var (NumVal lb), lr)]
       = zip (intervals_from var b bs) rs.
Proof.
  induction bs as [|b' bs IH]; intros b rs Hlen.
  - destruct rs as [|r [|? ?]]; simplify_eq/=. by exists b, r.
  - destruct rs as [|r rs]; simplify_eq/=.
    destruct (IH b' rs) as (lb & lr & Hlb & Hlr & Hzip); [done|].
    exists lb, lr. repeat split.
    + done.
    + destruct rs; [done|]. done.
    + by rewrite Hzip.
Qed.

(** [from_var] up to the constructor call: the assertion, the access to
    [breaks[0]], and otherwise the interval tests of the spec zipped with
    the candidate values, less the [None] entries. *)
Lemma from_var_vals_closed var breaks range_vals w :
  from_var_vals var breaks range_vals w
  = (if negb (len range_vals =? len breaks + 1)
     then Raise (AssertionError [])
     else match breaks with
          | [] => Raise IndexError
          | _ :: _ =>
              Ret (drop_None (zip (interval_tests var breaks) range_vals))
          end,
     w).
Proof.
  unfold from_var_vals, bind at 1.
  destruct (len range_vals =? len breaks + 1) eqn:Hlen; simpl; [|done].
  apply Z.eqb_eq in Hlen. unfold len in Hlen.
  destruct breaks as [|b bs].
  { unfold bind. by rewrite index_empty. }
  destruct range_vals as [|r rs]; [simpl in Hlen; lia|].
  assert (length rs = S (length bs)) as Hrs by (simpl in Hlen; lia).
  unfold bind at 1. change 0 with (Z.of_nat 0).
  rewrite (index_nat _ _ b) by done.
  unfold bind at 1. rewrite (index_nat _ _ r) by done.
  unfold bind at 1.
  replace (len (b :: bs) - 1) with (Z.of_nat (length bs))
    by (unfold len; simpl; lia).
  unfold range. rewrite Nat2Z.id.
  pose proof (from_var_loop var bs b [] [r] rs
                [(Lt var (NumVal b), r)] w eq_refl) as Hloop.
  simpl in Hloop. simpl. rewrite Hloop by lia.
  destruct (bounded_then_last var bs b rs Hrs) as (lb & lr & Hlb & Hlr & Hzip).
  unfold bind at 1. rewrite (index_last _ lb) by done.
  unfold bind at 1. rewrite (index_last _ lr).
  2:{ destruct rs; [done|]. done. }
  unfold ret. by rewrite <- Hzip.
Qed.

Lemma from_var_closed var breaks range_vals s w :
  from_var var breaks range_vals s w
  = (if negb (len range_vals =? len breaks + 1)
     then Raise (AssertionError [])
     else match breaks with
          | [] => Raise IndexError
          | _ :: _ => Raise (TypeError "wrong number of positional arguments")
          end,
     w).
Proof.
  unfold from_var, bind. rewrite from_var_vals_closed.
  destruct (negb _); [done|]. by destruct breaks.
Qed.

(** ** The invariant of the class *)

Lemma consistent_initial : consistent initial_world.
Proof.
  split; simpl.
  - intros l p H. by rewrite lookup_empty in H.
  - intros l l' p p' H. by rewrite lookup_empty in H.
  - intros l p h H. by rewrite lookup_empty in H.
  - intros n H. set_solver.
Qed.

Lemma consistent_core w w' : core w' = core w -> consistent w -> consistent w'.
Proof.
  unfold core. intros [= Hid Hinst Hnames] [H1 H2 H3 H4].
  split; rewrite ?Hid, ?Hinst, ?Hnames; done.
Qed.

(** An instance is rewritten in place: same id, nothing issued is
    forgotten, every new name is issued by the instance. *)
Lemma consistent_update w w' self p p' :
  consistent w ->
  instances w !! self = Some p ->
  Piecewise_id w' = Piecewise_id w ->
  instances w' = <[self := p']> (instances w) ->
  Piecewise.id p' = Piecewise.id p ->
  (forall h, Piecewise.val_def p' = Some h ->
             h = Real (val_name (Piecewise.id p'))) ->
  (forall n, issued p n -> issued p' n) ->
  (forall n, n ∈ z3_names w' -> n ∈ z3_names w \/ issued p' n) ->
  consistent w'.
Proof.
  intros [H1 H2 H3 H4] Hself Hid Hinst Hsame Hcache Hmono Hnew.
  split; rewrite ?Hid, ?Hinst.
  - intros l q [[<- <-]|[Hne Hq]]%lookup_insert_Some.
    + rewrite Hsame. by eapply H1.
    + by eapply H1.
  - intros l l' q q' [[<- <-]|[Hne Hq]]%lookup_insert_Some
                     [[<- <-]|[Hne' Hq']]%lookup_insert_Some Heq; try done.
    + rewrite Hsame in Heq. by eapply H2.
    + rewrite Hsame in Heq. by eapply H2.
    + by eapply H2.
  - intros l q h [[<- <-]|[Hne Hq]]%lookup_insert_Some Hh.
    + by apply Hcache.
    + by eapply H3.
  - intros n [Hold|Hiss]%Hnew.
    + destruct (H4 n Hold) as [Hf|(l & q & Hq & Hn)]; [by left|]. right.
      destruct (decide (l = self)) as [->|Hne].
      * exists self, p'. rewrite lookup_insert_eq. split; [done|].
        apply Hmono. by simplify_eq.
      * exists l, q. by rewrite lookup_insert_ne.
    + right. exists self, p'. by rewrite lookup_insert_eq.
Qed.

(** The invariant does not look at the solvers: a client may add
    constraints, open and close scopes and check as it likes. *)
Lemma consistent_solvers m w : consistent w -> consistent (set_solvers m w).
Proof. by apply consistent_core. Qed.

(** A client may make unknowns of its own under foreign names. *)
Lemma consistent_foreign_name n w :
  foreign n -> consistent w -> consistent (snd (z3_Real n w)).
Proof.
  intros Hn [H1 H2 H3 H4]. split; simpl; try done.
  intros m [->%elem_of_singleton|Hm]%elem_of_union; [by left | by apply H4].
Qed.

(** [val] materialises the value of an instance at most once. *)
Lemma consistent_val self w : consistent w -> consistent (snd (val self w)).
Proof.
  intros Hw. unfold val, bind at 1, get_instance.
  destruct (instances w !! self) as [p|] eqn:Hself; [|done].
  destruct (Piecewise.val_def p) as [h|] eqn:Hdef; [done|].
  unfold bind at 1, z3_Real. unfold bind at 1, put_instance.
  match goal with
  | |- consistent (snd (_ ?w1)) => set (w' := w1)
  end.
  apply (consistent_core w'); [apply solver_only_register|].
  eapply (consistent_update w w' self p); try done; simpl.
  - by intros h [= <-].
  - intros n [[-> _]|Haux]; [by left | by right].
  - intros n [->%elem_of_singleton|Hn]%elem_of_union; [right; by left | by left].
Qed.

(** [__mul__] on a term and [__add__] issue the next auxiliary name. *)
Lemma consistent_aux self p w w' n :
  consistent w ->
  instances w !! self = Some p ->
  (n = mul_name (Piecewise.name p) (Piecewise.id p) (Piecewise.aux_id p)
   \/ n = add_name (Piecewise.id p) (Piecewise.aux_id p)) ->
  core w' = (Piecewise_id w,
             <[self := set_aux_id (Piecewise.aux_id p + 1) p]> (instances w),
             {[n]} ∪ z3_names w) ->
  consistent w'.
Proof.
  intros Hw Hself Hn [= Hid Hinst Hnames].
  eapply (consistent_update w w' self p); try done; simpl.
  - intros h Hh. by eapply (cached_named w Hw).
  - intros m [Hval|(k & Hk & Hm)]; [by left|].
    right. exists k. split; [simpl; lia | done].
  - rewrite Hnames.
    intros m [->%elem_of_singleton|Hm]%elem_of_union; [|by left].
    right. right. exists (Piecewise.aux_id p). split; [simpl; lia | done].
Qed.

Lemma consistent_mul self other w :
  consistent w -> consistent (snd (__mul__ self other w)).
Proof.
  intros Hw. destruct other as [k|e]; unfold __mul__.
  - pose proof (consistent_val self w Hw) as Hval.
    unfold bind. by destruct (val self w) as [[h|e] w'].
  - unfold bind at 1, get_instance.
    destruct (instances w !! self) as [p|] eqn:Hself; [|done].
    unfold bind at 1, z3_Real. unfold bind at 1, put_instance.
    eapply (consistent_aux self p w); [done | done | by left |].
    by rewrite solver_only_register.
Qed.

Lemma consistent_add float_add self other w :
  consistent w -> consistent (snd (__add__ float_add self other w)).
Proof.
  intros Hw. unfold __add__, bind at 1, get_instance.
  destruct (instances w !! self) as [p|] eqn:Hself; [|done].
  unfold bind at 1, z3_Real. unfold bind at 1, put_instance.
  eapply (consistent_aux self p w); [done | done | by right |].
  by rewrite (solver_only_sums (Piecewise.s p)
                (fun cv => py_add float_add (snd cv) other)
                (fun cv sum => Implies (fst cv) (Eq _ (coerce sum)))).
Qed.

(** [__init__] takes the current value of the class counter as the id of
    the new instance and advances the counter. *)
Lemma consistent_init s name vals w :
  consistent w -> consistent (snd (__init__ s name vals w)).
Proof.
  intros [H1 H2 H3 H4]. unfold __init__. simpl.
  pose proof (is_fresh (dom (instances w))) as Hfresh.
  rewrite elem_of_dom in Hfresh.
  assert (instances w !! fresh (dom (instances w)) = None) as Hnone.
  { by apply eq_None_not_Some. }
  split; simpl.
  - intros l q [[<- <-]|[Hne Hq]]%lookup_insert_Some; simpl; [lia|].
    specialize (H1 _ _ Hq). lia.
  - intros l l' q q' [[<- <-]|[Hne Hq]]%lookup_insert_Some
                     [[<- <-]|[Hne' Hq']]%lookup_insert_Some Heq;
      simpl in Heq; try done.
    + specialize (H1 _ _ Hq'). lia.
    + specialize (H1 _ _ Hq). lia.
    + by eapply H2.
  - intros l q h [[<- <-]|[Hne Hq]]%lookup_insert_Some Hh; [done|].
    by eapply H3.
  - intros n Hn. destruct (H4 n Hn) as [Hf|(l & q & Hq & Hiss)]; [by left|].
    right. exists l, q. split; [|done].
    rewrite lookup_insert_ne; [done|]. intros <-. congruence.
Qed.

Lemma consistent_call args w :
  consistent w -> consistent (snd (Piecewise_call args w)).
Proof.
  intros Hw. unfold Piecewise_call.
  repeat (case_match; try done). by apply consistent_init.
Qed.

Section Reachable.

Variable z3_check : list BoolRef -> CheckSatResult.
Variable float_add : PyNum -> PyNum -> Exn + Q.

Lemma consistent_exec c w :
  consistent w -> consistent (exec z3_check float_add c w).
Proof.
  intros Hw. destruct c; simpl.
  - apply (consistent_core w); [apply solver_only_MySolver_new | done].
  - by apply consistent_call.
  - by rewrite from_var_closed.
  - by apply consistent_val.
  - by apply consistent_mul.
  - by apply consistent_add.
  - apply (consistent_core w); [apply solver_only_verify | done].
Qed.

Lemma consistent_run cs : forall w,
  consistent w -> consistent (run z3_check float_add cs w).
Proof.
  induction cs as [|c cs IH]; intros w Hw; simpl; [done|].
  by apply IH, consistent_exec.
Qed.

Lemma consistent_reachable cs :
  consistent (run z3_check float_add cs initial_world).
Proof. apply consistent_run, consistent_initial. Qed.

End Reachable.

(** ** Names not yet in the context *)

Section Fresh.

Variables (w : World) (self : ref) (p : Piecewise.t).
Hypothesis Hw : consistent w.
Hypothesis Hself : instances w !! self = Some p.

Lemma generates_val_name : generates p (val_name (Piecewise.id p)).
Proof. by left. Qed.

Lemma generates_mul_name k :
  generates p (mul_name (Piecewise.name p) (Piecewise.id p) k).
Proof. right. left. by exists k. Qed.

Lemma generates_add_name k : generates p (add_name (Piecewise.id p) k).
Proof. right. right. by exists k. Qed.

Lemma fresh_val_name :
  Piecewise.val_def p = None -> val_name (Piecewise.id p) ∉ z3_names w.
Proof.
  intros Hnone Hin.
  destruct (names_owned w Hw _ Hin)
    as [Hf|(l & q & Hq & [[Hn Hdef]|(k & Hk & [Hn|Hn])])].
  - apply (Hf p), generates_val_name.
  - apply val_name_inj in Hn.
    assert (self = l) as <- by (by eapply (ids_distinct w Hw)).
    by simplify_eq.
  - by apply val_name_not_mul in Hn.
  - by apply val_name_not_add in Hn.
Qed.

Lemma fresh_mul_name :
  mul_name (Piecewise.name p) (Piecewise.id p) (Piecewise.aux_id p)
  ∉ z3_names w.
Proof.
  intros Hin.
  destruct (names_owned w Hw _ Hin)
    as [Hf|(l & q & Hq & [[Hn Hdef]|(k & Hk & [Hn|Hn])])].
  - apply (Hf p), generates_mul_name.
  - symmetry in Hn. by apply val_name_not_mul in Hn.
  - apply mul_name_inj in Hn as (_ & Hid & Haux).
    assert (self = l) as <- by (by eapply (ids_distinct w Hw)).
    simplify_eq. lia.
  - by apply mul_name_not_add in Hn.
Qed.

Lemma fresh_add_name :
  add_name (Piecewise.id p) (Piecewise.aux_id p) ∉ z3_names w.
Proof.
  intros Hin.
  destruct (names_owned w Hw _ Hin)
    as [Hf|(l & q & Hq & [[Hn Hdef]|(k & Hk & [Hn|Hn])])].
  - apply (Hf p), generates_add_name.
  - symmetry in Hn. by apply val_name_not_add in Hn.
  - symmetry in Hn. by apply mul_name_not_add in Hn.
  - apply add_name_inj in Hn as (Hid & Haux).
    assert (self = l) as <- by (by eapply (ids_distinct w Hw)).
    simplify_eq. lia.
Qed.

End Fresh.

(** ** The worked example *)

(** Under every assignment exactly one of x < 0 and x >= 0 holds. *)
Lemma sign_vals_partition rho : true_conditions rho Demo.sign_vals = 1%nat.
Proof.
  unfold Demo.sign_vals. rewrite !true_conditions_cons. simpl.
  by destruct (Qle_bool _ _).
Qed.

Lemma sign_query_unsatisfiable rho :
  holds rho (verify_query Demo.sign_vals) = false.
Proof. by rewrite holds_verify_query, sign_vals_partition. Qed.

Lemma engine_sound : sound Demo.engine.
Proof.
  intros cs. unfold Demo.engine. split.
  - by repeat case_match.
  - destruct cs as [|c [|? ?]]; try done.
    destruct (BoolRef_eqb c _) eqn:E; [|done]. intros _ rho Hsat.
    apply term_eqb_eq in E as ->.
    apply Forall_cons in Hsat as [Hsat _].
    by rewrite sign_query_unsatisfiable in Hsat.
Qed.

(** ** [verify] *)

(** Whatever the engine, [verify] raises exactly when [check()] answers
    [unsat] and returns normally on [sat] and on [unknown]. *)
Lemma verify_outcome z3_check self s p l sv w :
  instances w !! self = Some p ->
  proof_context s w = Some (l, sv) ->
  let r := z3_check (MySolver.assertions sv ++ [verify_query (Piecewise.vals p)]) in
  fst (verify z3_check self s w)
  = if CheckSatResult_eqb r unsat
    then Raise (AssertionError (verify_msg r (Piecewise.vals p)))
    else Ret tt.
Proof. intros Hself Hctx. by rewrite (verify_closed _ _ _ p l sv). Qed.

(** C1, where the code departs from the claim.  The conditions x < 0 and
    x >= 0 are exclusive and exhaustive, a sound engine answers [unsat] to
    the query that their count differs from 1, and [verify] then raises
    AssertionError: the assertion of the source demands an answer other
    than [unsat].  The message carries the answer and the list.  On the
    single condition x < 0, which no assignment with x >= 0 meets, the same
    engine answers [unknown] and [verify] returns normally. *)
Theorem verify_raises_on_partition :
  (forall rho, true_conditions rho Demo.sign_vals = 1%nat)
  /\ sound Demo.engine
  /\ Demo.engine [verify_query Demo.sign_vals] = unsat
  /\ fst (verify Demo.engine 0%nat (Some 0%nat) Demo.world)
     = Raise (AssertionError (verify_msg unsat Demo.sign_vals))
  /\ true_conditions (fun _ => 0%Q) Demo.gap_vals = 0%nat
  /\ Demo.engine [verify_query Demo.gap_vals] = unknown
  /\ fst (verify Demo.engine 0%nat (Some 0%nat) Demo.world_gap) = Ret tt.
Proof.
  split; [apply sign_vals_partition|].
  split; [apply engine_sound|].
  repeat split; by vm_compute.
Qed.

(** C9: [verify] sums one [If(c, 1, 0)] per condition, a term that denotes
    the number of true conditions; it then serves push, add of "count is
    not 1", check and pop in this order on its proof context, the check
    seeing the query on top of the constraints already there; and on both
    outcomes the proof context is left with the constraints and the scope
    depth it had. *)
Theorem verify_scoped z3_check self s p l sv w :
  instances w !! self = Some p ->
  proof_context s w = Some (l, sv) ->
  let q := verify_query (Piecewise.vals p) in
  let r := z3_check (MySolver.assertions sv ++ [q]) in
  (forall rho,
     (eval rho (coerce (num_sat (Piecewise.vals p)))
      == inject_Z (Z.of_nat (true_conditions rho (Piecewise.vals p))))%Q
     /\ holds rho q
        = negb (true_conditions rho (Piecewise.vals p) =? 1)%nat)
  /\ (fst (verify z3_check self s w) = Ret tt
      \/ fst (verify z3_check self s w)
         = Raise (AssertionError (verify_msg r (Piecewise.vals p))))
  /\ exists sv',
       solvers (snd (verify z3_check self s w)) !! l = Some sv'
       /\ MySolver.trace sv'
          = MySolver.trace sv
            ++ [MySolver.EvPush; MySolver.EvAdd q;
                MySolver.EvCheck r; MySolver.EvPop]
       /\ MySolver.assertions sv' = MySolver.assertions sv
       /\ MySolver.marks sv' = MySolver.marks sv
       /\ MySolver.depth sv' = MySolver.depth sv.
Proof.
  intros Hself Hctx q r. split; [|split].
  - intros rho. split; [apply num_sat_counts | apply holds_verify_query].
  - rewrite (verify_closed _ _ _ p l sv) by done. simpl.
    fold q. fold r. destruct (CheckSatResult_eqb r unsat); auto.
  - rewrite (verify_closed _ _ _ p l sv) by done. simpl.
    eexists. split; [apply lookup_insert_eq|]. by repeat split.
Qed.

Lemma verify_scoped_witness :
  instances Demo.world !! 0%nat
    = Some (Piecewise.mk 0%nat Demo.sign_vals 0%nat "p" 0%nat None)
  /\ proof_context (Some 0%nat) Demo.world = Some (0%nat, MySolver.new)
  /\ exists sv',
       solvers (snd (verify Demo.engine 0%nat (Some 0%nat) Demo.world))
         !! 0%nat = Some sv'
       /\ MySolver.depth sv' = MySolver.depth MySolver.new.
Proof.
  assert (H1 : instances Demo.world !! 0%nat
               = Some (Piecewise.mk 0%nat Demo.sign_vals 0%nat "p" 0%nat None))
    by (vm_compute; reflexivity).
  assert (H2 : proof_context (Some 0%nat) Demo.world
               = Some (0%nat, MySolver.new))
    by (vm_compute; reflexivity).
  split; [exact H1|]. split; [exact H2|].
  destruct (verify_scoped Demo.engine 0%nat (Some 0%nat) _ _ _ _ H1 H2)
    as (_ & _ & sv' & Hl & _ & _ & _ & Hd).
  exists sv'. split; [exact Hl | exact Hd].
Defined.

(** ** [from_var] *)

(** [from_var] never returns: the assertion, the access to [breaks[0]] or
    the constructor call raises, and the world is left as it was. *)
Lemma from_var_never_returns var breaks range_vals s w :
  exists e, from_var var breaks range_vals s w = (Raise e, w).
Proof.
  rewrite from_var_closed. destruct (negb _); [by eexists|].
  destruct breaks; by eexists.
Qed.

(** C2, where the code departs from the claim.  For the breakpoints 1, 2, 3
    and four candidate values, one of them [None], [from_var] builds the
    condition-value list the claim describes, and its last line
    [Piecewise(s, vals)] then raises TypeError, since [__init__] takes
    [s], [name] and [vals]: no [Piecewise] is returned. *)
Theorem from_var_raises_TypeError :
  let breaks := [PyInt 1; PyInt 2; PyInt 3] in
  let range_vals :=
    [Some (Lit (PyInt 10)); Some (Lit (PyInt 20)); None;
     Some (Lit (PyInt 40))] in
  from_var_vals Demo.x breaks range_vals Demo.world
  = (Ret [(Lt Demo.x (NumVal (PyInt 1)), Lit (PyInt 10));
          (And (Ge Demo.x (NumVal (PyInt 1)))
               (Lt Demo.x (NumVal (PyInt 2))), Lit (PyInt 20));
          (Ge Demo.x (NumVal (PyInt 3)), Lit (PyInt 40))],
     Demo.world)
  /\ from_var Demo.x breaks range_vals 0%nat Demo.world
     = (Raise (TypeError "wrong number of positional arguments"),
        Demo.world).
Proof.
  simpl. split.
  - by rewrite from_var_vals_closed.
  - by rewrite from_var_closed.
Qed.

(** C8: when the number of candidate values is not the number of
    breakpoints plus one, [from_var] raises AssertionError and the world is
    untouched: the class counter, the instances, the solvers and the z3
    context are what they were. *)
Theorem from_var_length_mismatch var breaks range_vals s w :
  length range_vals <> S (length breaks) ->
  from_var var breaks range_vals s w = (Raise (AssertionError []), w).
Proof.
  intros Hlen. rewrite from_var_closed.
  replace (len range_vals =? len breaks + 1) with false; [done|].
  symmetry. apply Z.eqb_neq. unfold len. lia.
Qed.

Lemma from_var_length_mismatch_witness :
  length [Some (Lit (PyInt 10))] <> S (length [PyInt 1])
  /\ from_var Demo.x [PyInt 1] [Some (Lit (PyInt 10))] 0%nat Demo.world
     = (Raise (AssertionError []), Demo.world).
Proof.
  split; [simpl; lia|].
  apply (from_var_length_mismatch Demo.x [PyInt 1] [Some (Lit (PyInt 10))]).
  simpl; lia.
Defined.

(** C10: with no breakpoint and one candidate value the length assertion
    passes and [breaks[0]] raises IndexError; IndexError arises in no other
    case, and the list of [from_var] is built exactly when the lengths fit
    and there is at least one breakpoint. *)
Theorem from_var_no_breakpoint var breaks range_vals s w :
  (forall v, from_var var [] [v] s w = (Raise IndexError, w))
  /\ (fst (from_var var breaks range_vals s w) = Raise IndexError
      <-> breaks = [] /\ length range_vals = 1%nat)
  /\ ((exists vals, from_var_vals var breaks range_vals w = (Ret vals, w))
      <-> length range_vals = S (length breaks) /\ breaks <> []).
Proof.
  split; [|split].
  - intros v. by rewrite from_var_closed.
  - rewrite from_var_closed. simpl.
    destruct (Z.eqb_spec (len range_vals) (len breaks + 1)) as [Hlen|Hlen];
      simpl.
    + destruct breaks as [|b bs]; unfold len in Hlen; simpl in Hlen.
      * split; [intros _; split; [done | lia] | done].
      * split; [done | by intros [? _]].
    + split; [done|]. intros [-> Hone]. destruct Hlen.
      unfold len. rewrite Hone. done.
  - rewrite from_var_vals_closed.
    destruct (Z.eqb_spec (len range_vals) (len breaks + 1)) as [Hlen|Hlen];
      simpl; unfold len in Hlen.
    + destruct breaks as [|b bs].
      * split; [by intros [? ?] | by intros [_ ?]].
      * split; [intros _; split; [simpl in *; lia | done] | by eexists].
    + split; [by intros [? ?] | intros [? _]; lia].
Qed.

(** ** What a call can do to the instances *)

Lemma evolves_refl p : evolves p p.
Proof. by repeat split. Qed.

Lemma evolves_trans p1 p2 p3 : evolves p1 p2 -> evolves p2 p3 -> evolves p1 p3.
Proof.
  intros (Hs1 & Hv1 & Hi1 & Hn1 & Ha1 & Hc1) (Hs2 & Hv2 & Hi2 & Hn2 & Ha2 & Hc2).
  repeat split; try congruence; [lia | auto].
Qed.

Lemma step_val self w : step w (snd (val self w)).
Proof.
  unfold val, bind at 1, get_instance.
  destruct (instances w !! self) as [p|] eqn:Hself; [|by left].
  destruct (Piecewise.val_def p) as [h|] eqn:Hdef; [by left|].
  unfold bind at 1, z3_Real. unfold bind at 1, put_instance.
  right. left. eexists self, p, _, _. split; [done|]. split; [|].
  2:{ rewrite solver_only_register. reflexivity. }
  repeat split; simpl; try done. intros h. by rewrite Hdef.
Qed.

(** A new auxiliary: the name is interned, the counter advanced, and the
    loop talks to the solvers only. *)
Lemma step_aux self p w n (h : ArithRef) (body : BoolRef * Value -> M unit) :
  instances w !! self = Some p ->
  (forall cv, solver_only (body cv)) ->
  step w
    (snd ((for_each (Piecewise.vals p) body ;; ret h)
            (set_instances
               (<[self := set_aux_id (Piecewise.aux_id p + 1) p]>
                  (instances (set_z3_names ({[n]} ∪ z3_names w) w)))
               (set_z3_names ({[n]} ∪ z3_names w) w)))).
Proof.
  intros Hself Hbody. right. left. eexists self, p, _, _.
  split; [done|]. split; [|].
  2:{ rewrite solver_only_loop by done. reflexivity. }
  repeat split; simpl; try done. lia.
Qed.

Lemma step_mul self other w : step w (snd (__mul__ self other w)).
Proof.
  destruct other as [k|e]; unfold __mul__.
  - pose proof (step_val self w) as Hval.
    unfold bind. by destruct (val self w) as [[h|e] w'].
  - unfold bind at 1, get_instance.
    destruct (instances w !! self) as [p|] eqn:Hself; [|by left].
    unfold bind at 1, z3_Real. unfold bind at 1, put_instance.
    apply (step_aux self p w); [done|]. intros cv. apply solver_only_add.
Qed.

Lemma step_add float_add self other w :
  step w (snd (__add__ float_add self other w)).
Proof.
  unfold __add__, bind at 1, get_instance.
  destruct (instances w !! self) as [p|] eqn:Hself; [|by left].
  unfold bind at 1, z3_Real. unfold bind at 1, put_instance.
  apply (step_aux self p w); [done|]. intros cv. apply solver_only_bind.
  - apply pure_solver_only, pure_lift.
  - intros sum. apply solver_only_add.
Qed.

Lemma step_call args w : step w (snd (Piecewise_call args w)).
Proof.
  unfold Piecewise_call. repeat (case_match; try by left).
  right. right. by eexists _, _, _.
Qed.

Lemma step_exec z3_check float_add c w : step w (exec z3_check float_add c w).
Proof.
  destruct c; simpl.
  - left. apply solver_only_MySolver_new.
  - apply step_call.
  - left. by rewrite from_var_closed.
  - apply step_val.
  - apply step_mul.
  - apply step_add.
  - left. apply solver_only_verify.
Qed.

(** A property kept by every call is kept by every sequence of calls. *)
Lemma run_keeps z3_check float_add (P : World -> Prop) :
  (forall c w, P w -> P (exec z3_check float_add c w)) ->
  forall cs w, P w -> P (run z3_check float_add cs w).
Proof.
  intros Hstep cs. induction cs as [|c cs IH]; intros w Hw; simpl; [done|].
  by apply IH, Hstep.
Qed.

Lemma fresh_instance_None w : instances w !! fresh (dom (instances w)) = None.
Proof. apply eq_None_not_Some. rewrite <- elem_of_dom. apply is_fresh. Qed.

Lemma step_evolves w w' l p :
  step w w' -> instances w !! l = Some p ->
  exists p', instances w' !! l = Some p' /\ evolves p p'.
Proof.
  intros [Hcore|[(self & q & q' & ns & Hself & Hev & Hcore)|(s & name & vals & ->)]]
         Hl.
  - injection Hcore as _ -> _. exists p. split; [done | apply evolves_refl].
  - injection Hcore as _ -> _. destruct (decide (l = self)) as [->|Hne].
    + exists q'. rewrite lookup_insert_eq. by simplify_eq.
    + exists p. rewrite lookup_insert_ne by done.
      split; [done | apply evolves_refl].
  - exists p. simpl. split; [|apply evolves_refl].
    rewrite lookup_insert_ne; [done|]. intros <-.
    by rewrite fresh_instance_None in Hl.
Qed.

(** Through any sequence of calls an instance stays in the store and
    evolves. *)
Lemma run_evolves z3_check float_add cs w l p :
  instances w !! l = Some p ->
  exists p', instances (run z3_check float_add cs w) !! l = Some p'
             /\ evolves p p'.
Proof.
  intros Hl.
  apply (run_keeps z3_check float_add
           (fun w' => exists p', instances w' !! l = Some p' /\ evolves p p')).
  - intros c w0 (p0 & Hp0 & Hev0).
    destruct (step_evolves w0 _ l p0 (step_exec z3_check float_add c w0) Hp0)
      as (p1 & Hp1 & Hev1).
    exists p1. split; [done | by eapply evolves_trans].
  - exists p. split; [done | apply evolves_refl].
Qed.

(** The names an instance can generate depend on its id and its display
    name alone. *)
Lemma generates_evolves p q n : evolves p q -> generates q n -> generates p n.
Proof.
  intros (_ & _ & Hid & Hname & _). unfold generates.
  by rewrite Hid, Hname.
Qed.

(** ** Real assignments *)

Lemma Rltb_true a b : Rltb a b = true <-> (a < b)%R.
Proof. unfold Rltb. destruct (Rlt_dec a b); split; intros; done. Qed.

Lemma Rleb_true a b : Rleb a b = true <-> (a <= b)%R.
Proof. unfold Rleb. destruct (Rle_dec a b); split; intros; done. Qed.

Lemma Reqb_true a b : Reqb a b = true <-> a = b.
Proof. unfold Reqb. destruct (Req_dec_T a b); split; intros; done. Qed.

Lemma Reqb_refl a : Reqb a a = true.
Proof. by apply Reqb_true. Qed.

Lemma Q2R_inject_Z z : Q2R (inject_Z z) = IZR z.
Proof. unfold Q2R. simpl. lra. Qed.

(** A rational assignment is a real assignment: terms keep their values
    and constraints their truth. *)
Lemma real_of_rational rho :
  (forall e, evalR (real_of rho) e = Q2R (eval rho e))
  /\ (forall b, holdsR (real_of rho) b = holds rho b).
Proof.
  assert (Hle : forall a b, Rleb (Q2R a) (Q2R b) = Qle_bool a b).
  { intros a b. destruct (Qle_bool a b) eqn:E.
    - apply Rleb_true, Qle_Rle. by apply Qle_bool_iff.
    - apply not_true_is_false. intros H%Rleb_true%Rle_Qle%Qle_bool_iff.
      congruence. }
  assert (Hlt : forall a b, Rltb (Q2R a) (Q2R b) = negb (Qle_bool b a)).
  { intros a b. rewrite <- Hle. unfold Rltb, Rleb.
    destruct (Rlt_dec (Q2R a) (Q2R b)), (Rle_dec (Q2R b) (Q2R a));
      simpl; try done; lra. }
  assert (Heq : forall a b, Reqb (Q2R a) (Q2R b) = Qeq_bool a b).
  { intros a b. destruct (Qeq_bool a b) eqn:E.
    - apply Reqb_true, Qeq_eqR. by apply Qeq_bool_iff.
    - apply not_true_is_false. intros H%Reqb_true%eqR_Qeq%Qeq_bool_iff.
      congruence. }
  apply term_mutind; simpl; intros;
    repeat match goal with
           | H : evalR _ _ = _ |- _ => rewrite H; clear H
           | H : holdsR _ _ = _ |- _ => rewrite H; clear H
           end;
    rewrite ?Hle, ?Hlt, ?Heq, <- ?Q2R_plus, <- ?Q2R_mult; try done.
  by destruct (holds rho c).
Qed.

Lemma satisfiesR_app rho a b :
  satisfiesR rho (a ++ b) <-> satisfiesR rho a /\ satisfiesR rho b.
Proof. apply Forall_app. Qed.

(** ** [val], [__mul__] and [__add__] *)

Lemma reachable_consistent z3_check float_add w :
  reachable z3_check float_add w -> consistent w.
Proof. intros [cs ->]. apply consistent_reachable. Qed.

(** The name of the client's unknown in the examples is foreign. *)
Lemma x_foreign : foreign "x".
Proof.
  intros p [H|[[k H]|[k H]]];
    unfold val_name, mul_name, add_name in H; push_append; discriminate.
Qed.

Lemma ambient_consistent : consistent Demo.world_ambient.
Proof.
  split; unfold Demo.world_ambient; simpl.
  - intros l p [_ <-]%lookup_singleton_Some. simpl. lia.
  - by intros l l' p p' [<- _]%lookup_singleton_Some [<- _]%lookup_singleton_Some.
  - by intros l p h [_ <-]%lookup_singleton_Some.
  - intros n ->%elem_of_singleton. left. apply x_foreign.
Qed.

Lemma solver_only_names {A} (m : M A) w :
  solver_only m -> z3_names (snd (m w)) = z3_names w.
Proof. intros H. specialize (H w). by injection H. Qed.

Lemma then_ret_returns {A B} (m : M A) (b b' : B) w :
  fst ((m ;; ret b) w) = Ret b' -> b' = b.
Proof.
  unfold bind. destruct (m w) as [[a|e] w']; simpl; [by intros [= ->] | done].
Qed.

Lemma mentions_Real n m : mentions n (Real m) = true -> n = m.
Proof. simpl. by intros ->%String.eqb_eq. Qed.

Lemma mentions_Mul_Real n m k :
  mentions n (Mul (Real m) (NumVal k)) = true -> n = m.
Proof. simpl. rewrite orb_false_r. by intros ->%String.eqb_eq. Qed.

(** What [val] returns and what it adds to the z3 context. *)
Lemma val_yield self w p :
  consistent w -> instances w !! self = Some p ->
  (forall h, fst (val self w) = Ret h -> h = Real (val_name (Piecewise.id p)))
  /\ (forall n, n ∈ z3_names (snd (val self w)) ->
        n ∈ z3_names w \/ n = val_name (Piecewise.id p)).
Proof.
  intros Hw Hself.
  destruct (Piecewise.val_def p) as [h0|] eqn:Hdef.
  - rewrite (val_cached self p w Hself h0 Hdef). simpl.
    split; [|by left]. intros h [= <-]. by eapply (cached_named w Hw).
  - split; unfold val, bind at 1, get_instance; rewrite Hself, Hdef;
      unfold bind at 1, z3_Real; unfold bind at 1, put_instance.
    + intros h Hh. by apply then_ret_returns in Hh.
    + intros n. rewrite solver_only_names by apply solver_only_register.
      simpl. intros [->%elem_of_singleton|Hn]%elem_of_union; auto.
Qed.

(** [__mul__] by a number is [val] followed by a product. *)
Lemma mul_literal_val self k w :
  snd (__mul__ self (Lit k) w) = snd (val self w)
  /\ forall h, fst (__mul__ self (Lit k) w) = Ret h ->
       exists h0, fst (val self w) = Ret h0 /\ h = Mul h0 (NumVal k).
Proof.
  unfold __mul__, bind. destruct (val self w) as [[h0|e] w']; simpl.
  - split; [done|]. intros h [= <-]. by exists h0.
  - by split.
Qed.

(** What [__mul__] by a term returns and adds to the z3 context. *)
Lemma mul_yield self e w p :
  instances w !! self = Some p ->
  let n := mul_name (Piecewise.name p) (Piecewise.id p) (Piecewise.aux_id p) in
  (forall h, fst (__mul__ self (Sym e) w) = Ret h -> h = Real n)
  /\ z3_names (snd (__mul__ self (Sym e) w)) = {[n]} ∪ z3_names w.
Proof.
  intros Hself n.
  split; unfold __mul__, bind at 1, get_instance; rewrite Hself;
    unfold bind at 1, z3_Real; unfold bind at 1, put_instance.
  - intros h Hh. by apply then_ret_returns in Hh.
  - by rewrite solver_only_names by apply solver_only_register.
Qed.

(** What [__add__] returns and adds to the z3 context. *)
Lemma add_yield float_add self other w p :
  instances w !! self = Some p ->
  let n := add_name (Piecewise.id p) (Piecewise.aux_id p) in
  (forall h, fst (__add__ float_add self other w) = Ret h -> h = Real n)
  /\ z3_names (snd (__add__ float_add self other w)) = {[n]} ∪ z3_names w.
Proof.
  intros Hself n.
  split; unfold __add__, bind at 1, get_instance; rewrite Hself;
    unfold bind at 1, z3_Real; unfold bind at 1, put_instance.
  - intros h Hh. by apply then_ret_returns in Hh.
  - by rewrite (solver_only_names _ _
                  (solver_only_sums (Piecewise.s p)
                     (fun cv => py_add float_add (snd cv) other)
                     (fun cv sum => Implies (fst cv) (Eq _ (coerce sum)))
                     _ _)).
Qed.

(** Every symbol name that a call on an instance generates is one of the
    names of that instance. *)
Lemma yields_generates float_add op self w p n :
  consistent w -> instances w !! self = Some p ->
  yields float_add op self w n -> generates p n.
Proof.
  intros Hw Hself Hy.
  destruct op as [|[k|e]|other]; unfold yields, perform in Hy.
  - destruct (val_yield self w p Hw Hself) as [Hret Hnames].
    destruct Hy as [(h & Hh & Hm)|[Hin Hout]].
    + rewrite (Hret h Hh) in Hm. apply mentions_Real in Hm as ->. by left.
    + destruct (Hnames n Hin) as [?| ->]; [done | by left].
  - destruct (val_yield self w p Hw Hself) as [Hret Hnames].
    destruct (mul_literal_val self k w) as [Hsnd Hfst].
    destruct Hy as [(h & Hh & Hm)|[Hin Hout]].
    + destruct (Hfst h Hh) as (h0 & Hh0 & ->).
      rewrite (Hret h0 Hh0) in Hm. apply mentions_Mul_Real in Hm as ->.
      by left.
    + rewrite Hsnd in Hin. destruct (Hnames n Hin) as [?| ->]; [done | by left].
  - destruct (mul_yield self e w p Hself) as [Hret Hnames].
    destruct Hy as [(h & Hh & Hm)|[Hin Hout]].
    + rewrite (Hret h Hh) in Hm. apply mentions_Real in Hm as ->.
      right. left. by eexists.
    + rewrite Hnames in Hin.
      apply elem_of_union in Hin as [->%elem_of_singleton|?]; [|done].
      right. left. by eexists.
  - destruct (add_yield float_add self other w p Hself) as [Hret Hnames].
    destruct Hy as [(h & Hh & Hm)|[Hin Hout]].
    + rewrite (Hret h Hh) in Hm. apply mentions_Real in Hm as ->.
      right. right. by eexists.
    + rewrite Hnames in Hin.
      apply elem_of_union in Hin as [->%elem_of_singleton|?]; [|done].
      right. right. by eexists.
Qed.

Lemma consistent_perform float_add op self w :
  consistent w -> consistent (snd (perform float_add op self w)).
Proof.
  intros Hw. destruct op; simpl;
    [by apply consistent_val | by apply consistent_mul | by apply consistent_add].
Qed.

(** ** The sums of [__add__] *)

Lemma add_constraints_cons float_add aux other c v (vals : CondVals) :
  add_constraints float_add aux other ((c, v) :: vals)
  = match py_add float_add v other with
    | inl e => ([], Some e)
    | inr sum =>
        (Implies c (Eq aux (coerce sum))
           :: fst (add_constraints float_add aux other vals),
         snd (add_constraints float_add aux other vals))
    end.
Proof. reflexivity. Qed.

(** The loop gets through a first part of the list, one implication per
    pair, and stops at the first pair whose sum raises. *)
Lemma add_constraints_spec float_add aux other (vals : CondVals) :
  exists done rest,
    vals = done ++ rest
    /\ Forall2 (add_implication float_add aux other) done
               (fst (add_constraints float_add aux other vals))
    /\ match snd (add_constraints float_add aux other vals) with
       | None => rest = []
       | Some e => exists c v rest',
                     rest = (c, v) :: rest'
                     /\ py_add float_add v other = inl e
       end.
Proof.
  induction vals as [|[c v] vals IH].
  - exists [], []. simpl. repeat split; constructor.
  - rewrite add_constraints_cons.
    destruct (py_add float_add v other) as [e|sum] eqn:Hsum; simpl.
    + exists [], ((c, v) :: vals). split; [done|]. split; [constructor|].
      by exists c, v, vals.
    + destruct IH as (done & rest & Hvals & HF & Hrest).
      exists ((c, v) :: done), rest. split; [by rewrite Hvals|].
      split; [|done]. constructor; [|done]. exists sum. by split.
Qed.

Lemma add_constraints_defined float_add aux other (vals : CondVals) :
  sums_defined float_add other vals ->
  snd (add_constraints float_add aux other vals) = None
  /\ Forall2 (add_implication float_add aux other) vals
             (fst (add_constraints float_add aux other vals)).
Proof.
  intros Hdef.
  destruct (add_constraints_spec float_add aux other vals)
    as (done & rest & Hvals & HF & Hrest).
  destruct (snd (add_constraints float_add aux other vals)) as [e|].
  - destruct Hrest as (c & v & rest' & -> & Hsum).
    destruct (Hdef c v) as [sum Hsum'].
    + rewrite Hvals. apply elem_of_app. right. apply list_elem_of_here.
    + congruence.
  - subst rest. rewrite app_nil_r in Hvals. by subst done.
Qed.

Lemma add_implication_defined float_add aux other (vals : CondVals) cs :
  Forall2 (add_implication float_add aux other) vals cs ->
  sums_defined float_add other vals.
Proof.
  induction 1 as [|[c0 v0] c1 vals cs (sum & Hsum & _) _ IH]; intros c v Hin.
  - by apply elem_of_nil in Hin.
  - apply elem_of_cons in Hin as [[= -> ->]|Hin]; [by exists sum|].
    by apply (IH c v).
Qed.

(** A sum without float arithmetic is computed, and it denotes the sum of
    the denotations. *)
Lemma py_add_exact float_add v other :
  exact_sum v other = true ->
  exists sum,
    py_add float_add v other = inr sum
    /\ forall rho,
         evalR rho (coerce sum)
         = (evalR rho (coerce v) + evalR rho (coerce other))%R.
Proof.
  destruct v as [[x|x]|a], other as [[y|y]|b]; simpl; try done; intros _;
    (eexists; split; [reflexivity|]); intros rho; simpl; try done.
  by rewrite !Q2R_inject_Z, plus_IZR.
Qed.

(** With a term on a side every sum is defined; so it is on ints. *)
Lemma sums_defined_exact float_add other (vals : CondVals) :
  (forall c v, (c, v) ∈ vals -> exact_sum v other = true) ->
  sums_defined float_add other vals.
Proof.
  intros Hex c v Hin.
  destruct (py_add_exact float_add v other (Hex c v Hin)) as (sum & Hsum & _).
  by exists sum.
Qed.

Lemma huge_overflows : float_overflow (10 ^ 400) = true.
Proof. by vm_compute. Qed.

(** C3: on an instance whose value is not materialised yet, in any world,
    whatever constraints and open scopes its solver holds, [val] interns
    the name "auxPiecewiseVal_<id>", registers one implication "condition
    implies handle == value" per pair with the instance's solver, after
    the constraints that were there and in the scopes that were open,
    caches the handle and returns it; a further call, at once or in any
    later world in which the handle is cached, returns that handle and
    leaves the whole world, the solver included, as it is.  Where the
    invariant of the class holds the name is new to the z3 context. *)
Theorem val_materialises_once w self p sv :
  instances w !! self = Some p ->
  solvers w !! Piecewise.s p = Some sv ->
  Piecewise.val_def p = None ->
  let n := val_name (Piecewise.id p) in
  let h := Real n in
  let cs := (fun cv => Implies (fst cv) (Eq h (coerce (snd cv))))
              <$> Piecewise.vals p in
  let w1 := after_register self (set_val_def (Some h) p) n cs sv w in
  (consistent w -> n ∉ z3_names w)
  /\ val self w = (Ret h, w1)
  /\ length cs = length (Piecewise.vals p)
  /\ solvers w1 !! Piecewise.s p = Some (registered cs sv)
  /\ MySolver.assertions (registered cs sv) = MySolver.assertions sv ++ cs
  /\ MySolver.marks (registered cs sv) = MySolver.marks sv
  /\ instances w1 !! self = Some (set_val_def (Some h) p)
  /\ val self w1 = (Ret h, w1)
  /\ (forall w' p', instances w' !! self = Some p' ->
                    Piecewise.val_def p' = Some h ->
                    val self w' = (Ret h, w'))
  /\ (consistent w -> consistent w1).
Proof.
  intros Hself Hsolver Hnone n h cs w1.
  assert (Hw1 : instances w1 !! self = Some (set_val_def (Some h) p))
    by apply lookup_insert_eq.
  assert (Hfirst : val self w = (Ret h, w1)) by (by apply val_first).
  split; [intros Hw; by eapply fresh_val_name|].
  split; [done|]. split; [apply length_fmap|].
  split; [apply lookup_insert_eq|]. split; [done|]. split; [done|].
  split; [done|].
  split; [by apply (val_cached self (set_val_def (Some h) p))|].
  split; [intros w' p' Hp' Hh; by apply (val_cached self p')|].
  intros Hw. replace w1 with (snd (val self w)) by (by rewrite Hfirst).
  by apply consistent_val.
Qed.

Lemma val_materialises_once_witness :
  instances Demo.world_ambient !! 0%nat = Some Sample.p0
  /\ solvers Demo.world_ambient !! 0%nat = Some Demo.ambient
  /\ val 0%nat Demo.world_ambient
     = (Ret (Real "auxPiecewiseVal_0"), snd (val 0%nat Demo.world_ambient))
  /\ (MySolver.assertions
        <$> solvers (snd (val 0%nat Demo.world_ambient)) !! 0%nat)
     = Some [Ge Demo.x (NumVal (PyInt 0));
             Implies (Lt Demo.x (NumVal (PyInt 0)))
                     (Eq (Real "auxPiecewiseVal_0") (NumVal (PyInt 1)));
             Implies (Ge Demo.x (NumVal (PyInt 0)))
                     (Eq (Real "auxPiecewiseVal_0") (NumVal (PyInt 2)))]
  /\ val 0%nat (snd (val 0%nat Demo.world_ambient))
     = (Ret (Real "auxPiecewiseVal_0"), snd (val 0%nat Demo.world_ambient))
  /\ "auxPiecewiseVal_0" ∉ z3_names Demo.world_ambient.
Proof.
  assert (Hself : instances Demo.world_ambient !! 0%nat = Some Sample.p0)
    by (vm_compute; reflexivity).
  assert (Hsolver : solvers Demo.world_ambient !! Piecewise.s Sample.p0
                    = Some Demo.ambient)
    by (vm_compute; reflexivity).
  destruct (val_materialises_once Demo.world_ambient 0%nat Sample.p0
              Demo.ambient Hself Hsolver eq_refl)
    as (Hfresh & Hfirst & _ & Hsv & _ & _ & _ & Hsecond & _ & _).
  split; [exact Hself|]. split; [exact Hsolver|].
  match type of Hfirst with
  | _ = (_, ?w1) =>
      assert (Hw1 : snd (val 0%nat Demo.world_ambient) = w1)
        by (by rewrite Hfirst);
      rewrite Hw1
  end.
  split; [exact Hfirst|]. split; [|split].
  - exact (f_equal (fmap MySolver.assertions) Hsv).
  - exact Hsecond.
  - apply Hfresh, ambient_consistent.
Defined.

(** C4: two distinct instances of a world in which the invariant of the
    class holds have distinct ids, both below the class counter, so the
    names that one can generate (materialised value, multiplication or
    addition auxiliary, for any auxiliary counter and any display names)
    are none of the names that the other can generate.  Every symbol name
    that [val], [__mul__] or [__add__] generates on one of them, now or in
    any later world, is among the names of that instance, so it differs
    from every symbol name that a call generates on the other.  The calls
    of the class lead to such later worlds, and a construction gives the
    new instance the current value of the class counter as id, advances
    the counter and keeps the invariant. *)
Theorem generated_names_never_collide z3_check float_add w l1 l2 p1 p2 :
  consistent w ->
  l1 <> l2 ->
  instances w !! l1 = Some p1 ->
  instances w !! l2 = Some p2 ->
  Piecewise.id p1 <> Piecewise.id p2
  /\ (Piecewise.id p1 < Piecewise_id w)%nat
  /\ (Piecewise.id p2 < Piecewise_id w)%nat
  /\ (forall n, generates p1 n -> ~ generates p2 n)
  /\ (forall w1 w2 q1 q2 op1 op2 n1 n2,
        consistent w1 -> instances w1 !! l1 = Some q1 -> evolves p1 q1 ->
        consistent w2 -> instances w2 !! l2 = Some q2 -> evolves p2 q2 ->
        yields float_add op1 l1 w1 n1 ->
        yields float_add op2 l2 w2 n2 ->
        generates p1 n1 /\ generates p2 n2 /\ n1 <> n2)
  /\ (forall cs,
        consistent (run z3_check float_add cs w)
        /\ (exists q1, instances (run z3_check float_add cs w) !! l1 = Some q1
                       /\ evolves p1 q1)
        /\ (exists q2, instances (run z3_check float_add cs w) !! l2 = Some q2
                       /\ evolves p2 q2))
  /\ (forall s name vals,
        exists l w',
          Piecewise_call [ObjSolver s; ObjStr name; ObjVals vals] w
          = (Ret l, w')
          /\ instances w !! l = None
          /\ instances w' !! l
             = Some (Piecewise.mk s vals (Piecewise_id w) name 0 None)
          /\ Piecewise_id w' = S (Piecewise_id w)
          /\ consistent w'
          /\ (forall l0 p0, instances w !! l0 = Some p0 ->
                            instances w' !! l0 = Some p0)).
Proof.
  intros Hw Hne H1 H2.
  assert (Hid : Piecewise.id p1 <> Piecewise.id p2).
  { intros Heq. apply Hne. by eapply (ids_distinct w Hw). }
  split; [done|]. split; [by eapply (ids_below w Hw)|].
  split; [by eapply (ids_below w Hw)|].
  split; [intros n; by apply generates_disjoint|].
  split; [|split].
  - intros w1 w2 q1 q2 op1 op2 n1 n2 Hw1 Hq1 He1 Hw2 Hq2 He2 Hy1 Hy2.
    assert (Hg1 : generates p1 n1).
    { apply (generates_evolves p1 q1); [done|].
      by apply (yields_generates float_add op1 l1 w1). }
    assert (Hg2 : generates p2 n2).
    { apply (generates_evolves p2 q2); [done|].
      by apply (yields_generates float_add op2 l2 w2). }
    split; [done|]. split; [done|]. intros <-.
    by apply (generates_disjoint p1 p2 n1).
  - intros cs. split; [by apply consistent_run|].
    split; by apply run_evolves.
  - intros s name vals. eexists _, _. simpl. unfold __init__.
    split; [reflexivity|]. simpl.
    split; [apply fresh_instance_None|].
    split; [apply lookup_insert_eq|]. split; [lia|]. split.
    + by apply (consistent_init s name vals w).
    + intros l0 p0 Hl0. rewrite lookup_insert_ne; [done|]. intros <-.
      by rewrite fresh_instance_None in Hl0.
Qed.

Lemma generated_names_never_collide_witness :
  consistent Demo.world2
  /\ (Piecewise.name <$> instances Demo.world2 !! 0%nat) = Some "p"
  /\ (Piecewise.name <$> instances Demo.world2 !! 1%nat) = Some "p"
  /\ fst (__mul__ 0%nat (Sym Demo.x) Demo.world2)
     = Ret (Real "auxPiecewiseMul_p_0,0")
  /\ fst (__mul__ 1%nat (Sym Demo.x) Demo.world2)
     = Ret (Real "auxPiecewiseMul_p_1,0")
  /\ "auxPiecewiseMul_p_0,0" <> "auxPiecewiseMul_p_1,0".
Proof.
  assert (Hw : consistent Demo.world2).
  { apply (consistent_reachable Demo.engine Demo.exact_add
             (Demo.setup
                ++ [CallPiecewise [ObjSolver 0%nat; ObjStr "p";
                                   ObjVals Demo.sign_vals]])). }
  assert (H1 : instances Demo.world2 !! 0%nat
               = Some (Piecewise.mk 0%nat Demo.sign_vals 0%nat "p" 0%nat None))
    by (vm_compute; reflexivity).
  assert (H2 : instances Demo.world2 !! 1%nat
               = Some (Piecewise.mk 0%nat Demo.sign_vals 1%nat "p" 0%nat None))
    by (vm_compute; reflexivity).
  assert (Hne : 0%nat <> 1%nat) by lia.
  assert (Hm1 : fst (__mul__ 0%nat (Sym Demo.x) Demo.world2)
                = Ret (Real "auxPiecewiseMul_p_0,0"))
    by (vm_compute; reflexivity).
  assert (Hm2 : fst (__mul__ 1%nat (Sym Demo.x) Demo.world2)
                = Ret (Real "auxPiecewiseMul_p_1,0"))
    by (vm_compute; reflexivity).
  destruct (generated_names_never_collide Demo.engine Demo.exact_add Demo.world2
              0%nat 1%nat _ _ Hw Hne H1 H2) as (_ & _ & _ & _ & Hnames & _).
  split; [exact Hw|].
  split; [by rewrite H1|]. split; [by rewrite H2|].
  split; [exact Hm1|]. split; [exact Hm2|].
  apply (Hnames Demo.world2 Demo.world2 _ _
           (OpMul (Sym Demo.x)) (OpMul (Sym Demo.x))
           "auxPiecewiseMul_p_0,0" "auxPiecewiseMul_p_1,0"
           Hw H1 (evolves_refl _) Hw H2 (evolves_refl _)).
  - left. exists (Real "auxPiecewiseMul_p_0,0"). split; [exact Hm1 | reflexivity].
  - left. exists (Real "auxPiecewiseMul_p_1,0"). split; [exact Hm2 | reflexivity].
Defined.

(** C5: multiplied by a term, an instance of any world, whatever its
    solver holds, interns the name "auxPiecewiseMul_<name>_<id>,<aux_id>",
    advances its auxiliary counter by one, registers one implication
    "condition implies auxiliary == value * operand" per pair after the
    constraints that were there, and returns the auxiliary; a second
    multiplication by a term returns an auxiliary of a different name,
    built from the advanced counter.  Where the invariant of the class
    holds both names are new to the z3 context. *)
Theorem mul_symbolic_allocates w self p sv e e' :
  instances w !! self = Some p ->
  solvers w !! Piecewise.s p = Some sv ->
  let name1 := mul_name (Piecewise.name p) (Piecewise.id p)
                        (Piecewise.aux_id p) in
  let name2 := mul_name (Piecewise.name p) (Piecewise.id p)
                        (Piecewise.aux_id p + 1) in
  let cs1 := (fun cv => Implies (fst cv)
                          (Eq (Real name1) (Mul (coerce (snd cv)) e)))
               <$> Piecewise.vals p in
  let cs2 := (fun cv => Implies (fst cv)
                          (Eq (Real name2) (Mul (coerce (snd cv)) e')))
               <$> Piecewise.vals p in
  let p1 := set_aux_id (Piecewise.aux_id p + 1) p in
  let p2 := set_aux_id (Piecewise.aux_id p + 1 + 1) p in
  let w1 := after_register self p1 name1 cs1 sv w in
  let w2 := after_register self p2 name2 cs2 (registered cs1 sv) w1 in
  (consistent w -> name1 ∉ z3_names w)
  /\ __mul__ self (Sym e) w = (Ret (Real name1), w1)
  /\ length cs1 = length (Piecewise.vals p)
  /\ solvers w1 !! Piecewise.s p = Some (registered cs1 sv)
  /\ MySolver.assertions (registered cs1 sv) = MySolver.assertions sv ++ cs1
  /\ MySolver.marks (registered cs1 sv) = MySolver.marks sv
  /\ __mul__ self (Sym e') w1 = (Ret (Real name2), w2)
  /\ name1 <> name2
  /\ (consistent w -> name2 ∉ z3_names w1)
  /\ (consistent w -> consistent w1 /\ consistent w2).
Proof.
  intros Hself Hsolver name1 name2 cs1 cs2 p1 p2 w1 w2.
  assert (Hfirst : __mul__ self (Sym e) w = (Ret (Real name1), w1))
    by apply (mul_symbolic self p sv w Hself Hsolver e).
  assert (Hsecond : __mul__ self (Sym e') w1 = (Ret (Real name2), w2)).
  { apply (mul_symbolic self p1 (registered cs1 sv) w1);
      apply lookup_insert_eq. }
  assert (Hne : name1 <> name2).
  { intros Heq. apply mul_name_inj in Heq as (_ & _ & Heq). lia. }
  assert (Hw1 : consistent w -> consistent w1).
  { intros Hw.
    replace w1 with (snd (__mul__ self (Sym e) w)) by (by rewrite Hfirst).
    by apply consistent_mul. }
  split; [intros Hw; by eapply fresh_mul_name|].
  split; [done|]. split; [apply length_fmap|].
  split; [apply lookup_insert_eq|]. split; [done|]. split; [done|].
  split; [done|]. split; [done|]. split.
  - intros Hw. apply (fresh_mul_name w1 self p1 (Hw1 Hw)).
    apply lookup_insert_eq.
  - intros Hw. split; [by apply Hw1|].
    replace w2 with (snd (__mul__ self (Sym e') w1)) by (by rewrite Hsecond).
    by apply consistent_mul, Hw1.
Qed.

Lemma mul_symbolic_allocates_witness :
  instances Demo.world_ambient !! 0%nat = Some Sample.p0
  /\ solvers Demo.world_ambient !! 0%nat = Some Demo.ambient
  /\ fst (__mul__ 0%nat (Sym (Real "y")) Demo.world_ambient)
     = Ret (Real "auxPiecewiseMul_p_0,0")
  /\ fst (__mul__ 0%nat (Sym (Real "y"))
            (snd (__mul__ 0%nat (Sym (Real "y")) Demo.world_ambient)))
     = Ret (Real "auxPiecewiseMul_p_0,1")
  /\ "auxPiecewiseMul_p_0,0" <> "auxPiecewiseMul_p_0,1"
  /\ "auxPiecewiseMul_p_0,0" ∉ z3_names Demo.world_ambient.
Proof.
  assert (Hself : instances Demo.world_ambient !! 0%nat = Some Sample.p0)
    by (vm_compute; reflexivity).
  assert (Hsolver : solvers Demo.world_ambient !! Piecewise.s Sample.p0
                    = Some Demo.ambient)
    by (vm_compute; reflexivity).
  destruct (mul_symbolic_allocates Demo.world_ambient 0%nat Sample.p0
              Demo.ambient (Real "y") (Real "y") Hself Hsolver)
    as (Hfresh & Hfirst & _ & _ & _ & _ & Hsecond & Hne & _ & _).
  split; [exact Hself|]. split; [exact Hsolver|].
  match type of Hfirst with
  | _ = (_, ?w1) =>
      assert (Hw1 : snd (__mul__ 0%nat (Sym (Real "y")) Demo.world_ambient)
                    = w1)
        by (by rewrite Hfirst);
      rewrite Hw1
  end.
  rewrite Hfirst, Hsecond.
  split; [reflexivity|]. split; [reflexivity|].
  split; [exact Hne|]. apply Hfresh, ambient_consistent.
Defined.

(** C6, as the code has it: multiplied by a number [k], an instance of any
    world returns [h * k] for the handle [h] that [val()] returns and
    leaves the world as [val()] leaves it.  So the auxiliary counter keeps
    its value, no auxiliary is allocated, a value that is already
    materialised means no change at all, and the one name that can enter
    the z3 context is that of the materialised value, on the first use. *)
Theorem mul_literal_is_val_times w self p sv k :
  instances w !! self = Some p ->
  solvers w !! Piecewise.s p = Some sv ->
  exists h w',
    val self w = (Ret h, w')
    /\ __mul__ self (Lit k) w = (Ret (Mul h (NumVal k)), w')
    /\ (forall h0, Piecewise.val_def p = Some h0 -> h = h0 /\ w' = w)
    /\ (Piecewise.val_def p = None ->
        h = Real (val_name (Piecewise.id p))
        /\ z3_names w' = {[val_name (Piecewise.id p)]} ∪ z3_names w)
    /\ (consistent w ->
        h = Real (val_name (Piecewise.id p)) /\ consistent w')
    /\ (exists p', instances w' !! self = Some p'
                   /\ Piecewise.aux_id p' = Piecewise.aux_id p)
    /\ (forall n, n ∈ z3_names w' ->
                  n ∈ z3_names w \/ n = val_name (Piecewise.id p)).
Proof.
  intros Hself Hsolver.
  destruct (Piecewise.val_def p) as [h|] eqn:Hdef.
  - exists h, w. pose proof (val_cached self p w Hself h Hdef) as Hval.
    split; [exact Hval|].
    split; [unfold __mul__, bind; by rewrite Hval|].
    split; [by intros h0 [= <-]|]. split; [done|].
    split; [intros Hw; split; [by eapply (cached_named w Hw) | done]|].
    split; [by exists p | by left].
  - pose proof (val_first self p sv w Hself Hsolver Hdef) as Hval.
    simpl in Hval.
    match type of Hval with
    | _ = (Ret ?h, ?w') => exists h, w'
    end.
    split; [exact Hval|].
    split; [unfold __mul__, bind; by rewrite Hval|].
    split; [done|]. split; [done|]. split.
    { intros Hw. split; [done|].
      match goal with
      | |- consistent ?w' =>
          replace w' with (snd (val self w)) by (by rewrite Hval)
      end.
      by apply consistent_val. }
    split.
    + eexists. split; [apply lookup_insert_eq | done].
    + simpl. intros n [->%elem_of_singleton|Hn]%elem_of_union; auto.
Qed.

Lemma mul_literal_is_val_times_witness :
  instances Demo.world_ambient !! 0%nat = Some Sample.p0
  /\ solvers Demo.world_ambient !! 0%nat = Some Demo.ambient
  /\ __mul__ 0%nat (Lit (PyInt 3)) Demo.world_ambient
     = (Ret (Mul (Real "auxPiecewiseVal_0") (NumVal (PyInt 3))),
        snd (val 0%nat Demo.world_ambient))
  /\ z3_names (snd (val 0%nat Demo.world_ambient))
     = {["auxPiecewiseVal_0"]} ∪ z3_names Demo.world_ambient.
Proof.
  assert (Hself : instances Demo.world_ambient !! 0%nat = Some Sample.p0)
    by (vm_compute; reflexivity).
  assert (Hsolver : solvers Demo.world_ambient !! Piecewise.s Sample.p0
                    = Some Demo.ambient)
    by (vm_compute; reflexivity).
  destruct (mul_literal_is_val_times Demo.world_ambient 0%nat Sample.p0
              Demo.ambient (PyInt 3) Hself Hsolver)
    as (h & w' & Hval & Hmul & _ & Hnone & _).
  destruct (Hnone eq_refl) as [Hh Hnames].
  split; [exact Hself|]. split; [exact Hsolver|].
  assert (Hw' : snd (val 0%nat Demo.world_ambient) = w')
    by (by rewrite Hval).
  rewrite Hw', Hmul, Hh. split; [reflexivity | exact Hnames].
Defined.

(** C6 as stated fails on an instance that has not been materialised:
    multiplying it by the number 3 interns "auxPiecewiseVal_0", a name that
    the z3 context did not hold before the call. *)
Lemma mul_literal_allocates_counterexample :
  (Piecewise.val_def <$> instances Demo.world !! 0%nat) = Some None
  /\ ("auxPiecewiseVal_0" ∉ z3_names Demo.world)
  /\ ("auxPiecewiseVal_0"
      ∈ z3_names (snd (__mul__ 0%nat (Lit (PyInt 3)) Demo.world))).
Proof.
  split; [by vm_compute|].
  split; apply (bool_decide_unpack _); by vm_compute.
Qed.

(** C7, as the code has it: added to any operand, a term or a number, an
    instance of any world interns the name "auxPiecewiseAdd_<id>,<aux_id>",
    advances its auxiliary counter by one and keeps its cached value as it
    is; the auxiliary is neither the handle of [val()] nor built on it.
    The loop then computes "value + operand" pair by pair and registers
    "condition implies auxiliary == sum" for each.  When every sum can be
    computed, one implication per pair is registered and the auxiliary is
    returned; when a sum raises, the call raises that exception with the
    implications of the pairs before it registered.  A sum with a term on
    a side or of two ints is always computed and denotes the sum of the
    denotations; a sum with a float is rounded by the host, and an int
    beyond the float range added to a float raises OverflowError. *)
Theorem add_always_allocates float_add w self p sv other :
  instances w !! self = Some p ->
  solvers w !! Piecewise.s p = Some sv ->
  let n := add_name (Piecewise.id p) (Piecewise.aux_id p) in
  let aux := Real n in
  let p' := set_aux_id (Piecewise.aux_id p + 1) p in
  let cs := fst (add_constraints float_add aux other (Piecewise.vals p)) in
  snd (__add__ float_add self other w) = after_register self p' n cs sv w
  /\ (consistent w ->
      (n ∉ z3_names w)
      /\ consistent (snd (__add__ float_add self other w)))
  /\ Piecewise.aux_id p' = S (Piecewise.aux_id p)
  /\ Piecewise.val_def p' = Piecewise.val_def p
  /\ (forall i, n <> val_name i)
  /\ (forall h, consistent w -> Piecewise.val_def p = Some h -> aux <> h)
  /\ (sums_defined float_add other (Piecewise.vals p)
      <-> fst (__add__ float_add self other w) = Ret aux)
  /\ (fst (__add__ float_add self other w) = Ret aux ->
      Forall2 (add_implication float_add aux other) (Piecewise.vals p) cs
      /\ length cs = length (Piecewise.vals p))
  /\ (forall e, fst (__add__ float_add self other w) = Raise e ->
      exists done c v rest,
        Piecewise.vals p = done ++ (c, v) :: rest
        /\ py_add float_add v other = inl e
        /\ Forall2 (add_implication float_add aux other) done cs)
  /\ (fst (__add__ float_add self other w) = Ret aux
      \/ exists e, fst (__add__ float_add self other w) = Raise e)
  /\ (forall v, exact_sum v other = true ->
      exists sum,
        py_add float_add v other = inr sum
        /\ forall rho,
             evalR rho (coerce sum)
             = (evalR rho (coerce v) + evalR rho (coerce other))%R)
  /\ (forall z q, float_overflow z = true ->
        py_add float_add (Lit (PyInt z)) (Lit (PyFloat q)) = inl OverflowError
        /\ py_add float_add (Lit (PyFloat q)) (Lit (PyInt z))
           = inl OverflowError).
Proof.
  intros Hself Hsolver n aux p' cs.
  pose proof (add_any self p sv w Hself Hsolver float_add other) as Hadd.
  cbv zeta in Hadd. fold n aux p' in Hadd. fold cs in Hadd.
  destruct (add_constraints_spec float_add aux other (Piecewise.vals p))
    as (done & rest & Hvals & HF & Hrest). fold cs in HF.
  split; [by rewrite Hadd|].
  split.
  { intros Hw. split; [by eapply fresh_add_name | by apply consistent_add]. }
  split; [simpl; lia|]. split; [done|].
  split; [intros i Hn; symmetry in Hn; by apply val_name_not_add in Hn|].
  split.
  { intros h Hw Hh Heq. rewrite (cached_named w Hw _ _ _ Hself Hh) in Heq.
    apply (val_name_not_add (Piecewise.id p) (Piecewise.id p)
                            (Piecewise.aux_id p)).
    by apply (f_equal (fun t => match t with Real x => x | _ => "" end)) in Heq. }
  assert (Hret : fst (__add__ float_add self other w) = Ret aux ->
                 Forall2 (add_implication float_add aux other)
                         (Piecewise.vals p) cs).
  { rewrite Hadd. simpl.
    destruct (snd (add_constraints float_add aux other (Piecewise.vals p)))
      as [e'|]; [done|].
    intros _. subst rest. rewrite app_nil_r in Hvals. by rewrite Hvals. }
  split.
  { split.
    - intros Hdef.
      destruct (add_constraints_defined float_add aux other _ Hdef)
        as [Hnone _].
      by rewrite Hadd, Hnone.
    - intros Hfst. by apply (add_implication_defined float_add aux other _ cs),
                            Hret. }
  split.
  { intros Hfst. split; [by apply Hret|].
    symmetry. by eapply Forall2_length, Hret. }
  split.
  { intros e. rewrite Hadd. simpl.
    destruct (snd (add_constraints float_add aux other (Piecewise.vals p)))
      as [e'|]; [|done].
    intros [= ->]. destruct Hrest as (c & v & rest' & -> & Hsum).
    by exists done, c, v, rest'. }
  split.
  { rewrite Hadd. simpl.
    destruct (snd (add_constraints float_add aux other (Piecewise.vals p)));
      [right; by eexists | by left]. }
  split; [intros v; apply py_add_exact|].
  intros z q Hz. simpl. by rewrite Hz.
Qed.

Lemma add_always_allocates_witness :
  instances Demo.world_ambient !! 0%nat = Some Sample.p0
  /\ solvers Demo.world_ambient !! 0%nat = Some Demo.ambient
  /\ sums_defined Demo.exact_add (Lit (PyFloat (1 # 2))) Demo.sign_vals
  /\ fst (__add__ Demo.exact_add 0%nat (Lit (PyFloat (1 # 2))) Demo.world_ambient)
     = Ret (Real "auxPiecewiseAdd_0,0")
  /\ (MySolver.assertions
        <$> solvers (snd (__add__ Demo.exact_add 0%nat (Lit (PyFloat (1 # 2)))
                            Demo.world_ambient)) !! 0%nat)
     = Some [Ge Demo.x (NumVal (PyInt 0));
             Implies (Lt Demo.x (NumVal (PyInt 0)))
                     (Eq (Real "auxPiecewiseAdd_0,0") (NumVal (PyFloat (3 # 2))));
             Implies (Ge Demo.x (NumVal (PyInt 0)))
                     (Eq (Real "auxPiecewiseAdd_0,0") (NumVal (PyFloat (5 # 2))))]
  /\ "auxPiecewiseAdd_0,0" ∉ z3_names Demo.world_ambient.
Proof.
  assert (Hself : instances Demo.world_ambient !! 0%nat = Some Sample.p0)
    by (vm_compute; reflexivity).
  assert (Hsolver : solvers Demo.world_ambient !! Piecewise.s Sample.p0
                    = Some Demo.ambient)
    by (vm_compute; reflexivity).
  assert (Hdef : sums_defined Demo.exact_add (Lit (PyFloat (1 # 2)))
                              (Piecewise.vals Sample.p0)).
  { intros c v Hin. simpl in Hin.
    apply elem_of_cons in Hin as [[= -> ->]|Hin]; [by eexists|].
    apply list_elem_of_singleton in Hin as [= -> ->]. by eexists. }
  destruct (add_always_allocates Demo.exact_add Demo.world_ambient 0%nat Sample.p0
              Demo.ambient (Lit (PyFloat (1 # 2))) Hself Hsolver)
    as (Hsnd & Hfresh & _ & _ & _ & _ & Hret & _).
  pose proof (proj1 Hret Hdef) as Hfst.
  split; [exact Hself|]. split; [exact Hsolver|]. split; [exact Hdef|].
  split; [exact Hfst|]. split.
  - rewrite Hsnd. vm_compute. reflexivity.
  - exact (proj1 (Hfresh ambient_consistent)).
Defined.

(** C7 as stated fails on an int beyond the float range: with the values
    1 and 10^400, adding the float 0.5 raises whatever the float
    arithmetic of the host, and no handle is returned; with 1 + 0.5
    computed as 1.5 the call registers the implication of the first pair,
    then the sum of the second pair raises OverflowError: one implication
    for two pairs, the name interned and the counter advanced. *)
Lemma add_overflow_counterexample :
  (Piecewise.vals <$> instances Demo.world_huge !! 0%nat)
  = Some Demo.huge_vals
  /\ (forall float_add,
        exists e,
          fst (__add__ float_add 0%nat (Lit (PyFloat (1 # 2))) Demo.world_huge)
          = Raise e)
  /\ fst (__add__ Demo.exact_add 0%nat (Lit (PyFloat (1 # 2))) Demo.world_huge)
     = Raise OverflowError
  /\ (MySolver.assertions
        <$> solvers (snd (__add__ Demo.exact_add 0%nat (Lit (PyFloat (1 # 2)))
                            Demo.world_huge)) !! 0%nat)
     = Some [Implies (Lt Demo.x (NumVal (PyInt 0)))
                     (Eq (Real "auxPiecewiseAdd_0,0")
                         (NumVal (PyFloat (3 # 2))))]
  /\ (Piecewise.aux_id
        <$> instances (snd (__add__ Demo.exact_add 0%nat (Lit (PyFloat (1 # 2)))
                              Demo.world_huge)) !! 0%nat)
     = Some 1%nat
  /\ "auxPiecewiseAdd_0,0"
     ∈ z3_names (snd (__add__ Demo.exact_add 0%nat (Lit (PyFloat (1 # 2)))
                        Demo.world_huge)).
Proof.
  assert (Hself : instances Demo.world_huge !! 0%nat
                  = Some (Piecewise.mk 0%nat Demo.huge_vals 0%nat "h" 0%nat
                            None))
    by (vm_compute; reflexivity).
  assert (Hsolver : solvers Demo.world_huge !! 0%nat = Some MySolver.new)
    by (vm_compute; reflexivity).
  assert (Hadd := fun float_add =>
            add_any 0%nat _ _ Demo.world_huge Hself Hsolver float_add
                    (Lit (PyFloat (1 # 2)))).
  cbv zeta in Hadd. simpl Piecewise.vals in Hadd.
  unfold Demo.huge_vals in Hadd.
  split; [by rewrite Hself|]. split; [|split; [|split; [|split]]].
  - intros float_add. rewrite Hadd, !add_constraints_cons.
    cbn [py_add num_add]. rewrite huge_overflows.
    destruct (float_overflow 1); [by eexists|].
    destruct (float_add _ _); by eexists.
  - rewrite Hadd, !add_constraints_cons.
    cbn [py_add num_add]. by rewrite huge_overflows.
  - rewrite Hadd, !add_constraints_cons.
    cbn [py_add num_add]. rewrite huge_overflows.
    cbn [snd after_register solvers Piecewise.s set_aux_id].
    by rewrite lookup_insert_eq.
  - rewrite Hadd. cbn [snd after_register instances].
    by rewrite lookup_insert_eq.
  - rewrite Hadd. cbn [snd after_register z3_names]. set_solver.
Qed.

(** * Further properties *)

(** ** The list built by [from_var] *)

Lemma length_intervals_from var bs : forall b,
  length (intervals_from var b bs) = S (length bs).
Proof. induction bs as [|b' bs IH]; intros b; simpl; [done | by rewrite IH]. Qed.

Lemma length_interval_tests var b bs :
  length (interval_tests var (b :: bs)) = S (S (length bs)).
Proof. simpl. by rewrite length_intervals_from. Qed.

Lemma length_drop_None (tests : list BoolRef) : forall rv : list (option Value),
  length tests = length rv ->
  length (drop_None (zip tests rv)) = length (filter is_Some rv).
Proof.
  induction tests as [|c tests IH]; intros [|r rv] Hlen; simplify_eq/=; [done|].
  rewrite filter_cons. unfold drop_None in *. simpl.
  destruct r as [v|]; simpl; by rewrite IH.
Qed.

(** With fitting lengths and a breakpoint the list is built. *)
Lemma from_var_vals_built var breaks range_vals w :
  length range_vals = S (length breaks) ->
  breaks <> [] ->
  from_var_vals var breaks range_vals w
  = (Ret (drop_None (zip (interval_tests var breaks) range_vals)), w)
  /\ length (interval_tests var breaks) = length range_vals.
Proof.
  intros Hlen Hne. destruct breaks as [|b bs]; [done|]. split.
  - rewrite from_var_vals_closed.
    replace (len range_vals =? len (b :: bs) + 1) with true; [reflexivity|].
    symmetry. apply Z.eqb_eq. unfold len. rewrite Hlen. simpl length. lia.
  - by rewrite length_interval_tests, Hlen.
Qed.

(** X1: when the lengths fit and there is a breakpoint, lines 49 to 57 of
    [from_var] build the interval tests var < b1, b1 <= var < b2, ...,
    var >= bk, paired in order with the candidate values, less the pairs
    whose value is [None]: one test per candidate value, and as many pairs
    as there are values other than [None]. *)
Theorem from_var_vals_pairs var breaks range_vals w :
  length range_vals = S (length breaks) ->
  breaks <> [] ->
  exists vals,
    from_var_vals var breaks range_vals w = (Ret vals, w)
    /\ vals = drop_None (zip (interval_tests var breaks) range_vals)
    /\ length (interval_tests var breaks) = length range_vals
    /\ length vals = length (filter is_Some range_vals)
    /\ (length vals <= S (length breaks))%nat.
Proof.
  intros Hlen Hne.
  destruct (from_var_vals_built var breaks range_vals w Hlen Hne)
    as [Hret Htests].
  eexists. split; [exact Hret|].
  split; [done|]. split; [done|].
  rewrite (length_drop_None _ _ Htests). split; [done|].
  rewrite <- Hlen. apply length_filter.
Qed.

Lemma from_var_vals_pairs_witness :
  exists vals,
    from_var_vals Demo.x [PyInt 1; PyInt 2]
      [Some (Lit (PyInt 10)); None; Some (Lit (PyInt 30))] Demo.world
    = (Ret vals, Demo.world)
    /\ length vals = 2%nat.
Proof.
  destruct (from_var_vals_pairs Demo.x [PyInt 1; PyInt 2]
              [Some (Lit (PyInt 10)); None; Some (Lit (PyInt 30))]
              Demo.world eq_refl)
    as (vals & Hret & Hvals & _ & _ & _); [done|].
  exists vals. split; [exact Hret|]. rewrite Hvals. reflexivity.
Defined.

(** X2: [from_var] raises on every input and leaves the world as it found
    it; the exception is the TypeError of the constructor call exactly when
    the lengths fit and there is a breakpoint, so [from_var] returns an
    instance on no input at all. *)
Theorem from_var_always_raises var breaks range_vals s w :
  (exists e, from_var var breaks range_vals s w = (Raise e, w))
  /\ (fst (from_var var breaks range_vals s w)
      = Raise (TypeError "wrong number of positional arguments")
      <-> length range_vals = S (length breaks) /\ breaks <> []).
Proof.
  rewrite from_var_closed. simpl.
  destruct (Z.eqb_spec (len range_vals) (len breaks + 1)) as [Hlen|Hlen];
    unfold len in Hlen; simpl.
  - destruct breaks as [|b bs].
    + split; [by eexists|]. split; [done | by intros [_ ?]].
    + split; [by eexists|]. split; [intros _; split; [lia | done] | done].
  - split; [by eexists|]. split; [done | intros [? _]; lia].
Qed.

(** ** Ascending breakpoints cut the real line into intervals *)

Lemma Rleb_Q2R a b : Rleb (Q2R a) (Q2R b) = Qle_bool a b.
Proof.
  destruct (Qle_bool a b) eqn:E.
  - apply Rleb_true, Qle_Rle. by apply Qle_bool_iff.
  - apply not_true_is_false. intros H%Rleb_true%Rle_Qle%Qle_bool_iff.
    congruence.
Qed.

Lemma Reqb_Q2R a b : Reqb (Q2R a) (Q2R b) = Qeq_bool a b.
Proof.
  destruct (Qeq_bool a b) eqn:E.
  - apply Reqb_true, Qeq_eqR. by apply Qeq_bool_iff.
  - apply not_true_is_false. intros H%Reqb_true%eqR_Qeq%Qeq_bool_iff.
    congruence.
Qed.

Lemma count_trueR_cons rho c tests :
  count_trueR rho (c :: tests)
  = ((if holdsR rho c then 1 else 0) + count_trueR rho tests)%nat.
Proof.
  unfold count_trueR. rewrite filter_cons.
  destruct (holdsR rho c); by case_decide.
Qed.

Lemma true_conditionsR_cons rho cv vals :
  true_conditionsR rho (cv :: vals)
  = ((if holdsR rho (fst cv) then 1 else 0) + true_conditionsR rho vals)%nat.
Proof.
  unfold true_conditionsR. rewrite filter_cons.
  destruct (holdsR rho (fst cv)); by case_decide.
Qed.

(** Past the first test, one interval holds if the first breakpoint is
    reached and none otherwise. *)
Lemma count_intervals_from rho var bs : forall b,
  ascending_from b bs = true ->
  count_trueR rho (intervals_from var b bs)
  = if Rleb (Q2R (num_Q b)) (evalR rho var) then 1%nat else 0%nat.
Proof.
  induction bs as [|b' bs IH]; intros b Hasc; simpl intervals_from;
    rewrite count_trueR_cons.
  - simpl. unfold count_trueR. simpl. by destruct (Rleb _ _).
  - simpl in Hasc. apply andb_prop in Hasc as [Hle Hasc].
    rewrite (IH b' Hasc). simpl.
    apply Qle_bool_iff, Qle_Rle in Hle.
    unfold Rleb, Rltb.
    destruct (Rle_dec (Q2R (num_Q b')) (evalR rho var)),
             (Rle_dec (Q2R (num_Q b)) (evalR rho var)),
             (Rlt_dec (evalR rho var) (Q2R (num_Q b')));
      simpl; try done; lra.
Qed.

Lemma count_interval_tests rho var breaks :
  breaks <> [] -> ascending breaks = true ->
  count_trueR rho (interval_tests var breaks) = 1%nat.
Proof.
  destruct breaks as [|b bs]; [done|]. intros _ Hasc.
  simpl interval_tests. rewrite count_trueR_cons.
  rewrite (count_intervals_from _ _ _ _ Hasc). simpl.
  unfold Rleb, Rltb.
  destruct (Rlt_dec (evalR rho var) (Q2R (num_Q b))),
           (Rle_dec (Q2R (num_Q b)) (evalR rho var)); simpl; try done; lra.
Qed.

Lemma true_conditionsR_drop_None rho (tests : list BoolRef) :
  forall rv : list (option Value),
  (true_conditionsR rho (drop_None (zip tests rv)) <= count_trueR rho tests)%nat
  /\ (length tests = length rv -> Forall is_Some rv ->
      true_conditionsR rho (drop_None (zip tests rv)) = count_trueR rho tests).
Proof.
  induction tests as [|c tests IH]; intros [|r rv]; simpl;
    try (split; [unfold true_conditionsR; simpl; lia | done]).
  destruct (IH rv) as [Hle Heq]. rewrite count_trueR_cons.
  unfold drop_None in *. simpl. destruct r as [v|]; simpl.
  - rewrite true_conditionsR_cons. simpl. split; [lia|].
    intros [= Hlen] [_ Hall]%Forall_cons. by rewrite Heq.
  - split; [lia|]. intros _ [[? [=]] _]%Forall_cons.
Qed.

(** X3: for breakpoints in ascending order, the conditions of the list
    that [from_var] builds are mutually exclusive, at most one of them
    holding under any assignment of real numbers, and when no candidate
    value is [None] they are exhaustive as well: exactly one holds. *)
Theorem from_var_vals_partition var breaks range_vals w :
  length range_vals = S (length breaks) ->
  breaks <> [] ->
  ascending breaks = true ->
  exists vals,
    from_var_vals var breaks range_vals w = (Ret vals, w)
    /\ (forall rho : RealModel, (true_conditionsR rho vals <= 1)%nat)
    /\ (Forall is_Some range_vals ->
        forall rho : RealModel, true_conditionsR rho vals = 1%nat).
Proof.
  intros Hlen Hne Hasc.
  destruct (from_var_vals_built var breaks range_vals w Hlen Hne)
    as [Hret Htests].
  eexists. split; [exact Hret|]. split.
  - intros rho.
    destruct (true_conditionsR_drop_None rho (interval_tests var breaks)
                range_vals) as [Hle _].
    rewrite (count_interval_tests rho var breaks Hne Hasc) in Hle. done.
  - intros Hall rho.
    destruct (true_conditionsR_drop_None rho (interval_tests var breaks)
                range_vals) as [_ Heq].
    rewrite (Heq Htests Hall). by apply count_interval_tests.
Qed.

Lemma from_var_vals_partition_witness :
  exists vals,
    from_var_vals Demo.x [PyInt 1; PyInt 2]
      [Some (Lit (PyInt 10)); Some (Lit (PyInt 20)); Some (Lit (PyInt 30))]
      Demo.world
    = (Ret vals, Demo.world)
    /\ true_conditionsR Sample.rho_sqrt2 vals = 1%nat.
Proof.
  destruct (from_var_vals_partition Demo.x [PyInt 1; PyInt 2]
              [Some (Lit (PyInt 10)); Some (Lit (PyInt 20));
               Some (Lit (PyInt 30))]
              Demo.world eq_refl)
    as (vals & Hret & _ & Hone); [done | reflexivity |].
  exists vals. split; [exact Hret|].
  apply Hone. repeat constructor; by eexists.
Defined.

(** ** What the registered implications say *)

Lemma satisfiesR_implications rho h f (vals : CondVals) :
  satisfiesR rho (implications h f vals)
  <-> forall c v, (c, v) ∈ vals -> holdsR rho c = true ->
        evalR rho h = evalR rho (f v).
Proof.
  unfold satisfiesR, implications. rewrite Forall_fmap, Forall_forall. split.
  - intros H c v Hin Hc. specialize (H _ Hin). simpl in H.
    rewrite Hc in H. by apply Reqb_true.
  - intros H [c v] Hin. simpl.
    destruct (holdsR rho c) eqn:Hc; [|done]. simpl.
    apply Reqb_true. by apply (H c v).
Qed.

(** Two conditions that hold together force equal right-hand sides. *)
Lemma implications_agree rho h f (vals : CondVals) c1 v1 c2 v2 :
  satisfiesR rho (implications h f vals) ->
  (c1, v1) ∈ vals -> (c2, v2) ∈ vals ->
  holdsR rho c1 = true -> holdsR rho c2 = true ->
  evalR rho (f v1) = evalR rho (f v2).
Proof.
  rewrite satisfiesR_implications. intros H H1 H2 Hc1 Hc2.
  rewrite <- (H _ _ H1 Hc1). by apply (H c2 v2).
Qed.

(** The implications of [__add__]: the auxiliary is the sum that Python
    computed, for any condition that holds. *)
Lemma satisfiesR_sums float_add rho aux other (vals : CondVals) cs :
  Forall2 (add_implication float_add aux other) vals cs ->
  satisfiesR rho cs ->
  forall c v, (c, v) ∈ vals -> holdsR rho c = true ->
    exists sum, py_add float_add v other = inr sum
                /\ evalR rho aux = evalR rho (coerce sum).
Proof.
  induction 1 as [|cv c0 vals cs (sum & Hsum & ->) _ IH];
    intros Hsat c v Hin Hc.
  - by apply elem_of_nil in Hin.
  - apply Forall_cons in Hsat as [Hhead Hsat].
    apply elem_of_cons in Hin as [<-|Hin]; [|by apply (IH Hsat c v)].
    exists sum. split; [done|]. simpl in Hhead. rewrite Hc in Hhead.
    by apply Reqb_true.
Qed.

Lemma assignR_same n r rho : assignR n r rho n = r.
Proof. unfold assignR. by rewrite String.eqb_refl. Qed.

Lemma assignR_other n m r rho : m <> n -> assignR n r rho m = rho m.
Proof.
  intros Hne. unfold assignR.
  by replace (String.eqb m n) with false by (symmetry; by apply String.eqb_neq).
Qed.

Lemma sample_x_nonneg n r :
  n <> "x" -> holdsR (assignR n r Sample.rho5) (Ge Demo.x (NumVal (PyInt 0))) = true.
Proof.
  intros Hn. simpl. rewrite assignR_other by done.
  apply Rleb_true. rewrite Q2R_inject_Z. unfold Sample.rho5. lra.
Qed.

(** X4: after the first [val()], every assignment of real numbers that
    meets the constraints of the instance's solver gives the handle the
    value paired with any condition that holds; so two conditions that
    hold together under such an assignment carry equal values:
    overlapping conditions with different values leave the solver no
    assignment in the overlap. *)
Theorem val_pins_value self p sv w :
  instances w !! self = Some p ->
  solvers w !! Piecewise.s p = Some sv ->
  Piecewise.val_def p = None ->
  exists h sv',
    fst (val self w) = Ret h
    /\ solvers (snd (val self w)) !! Piecewise.s p = Some sv'
    /\ forall rho : RealModel,
         satisfiesR rho (MySolver.assertions sv') ->
         (forall c v, (c, v) ∈ Piecewise.vals p -> holdsR rho c = true ->
            evalR rho h = evalR rho (coerce v))
         /\ (forall c1 v1 c2 v2,
               (c1, v1) ∈ Piecewise.vals p -> (c2, v2) ∈ Piecewise.vals p ->
               holdsR rho c1 = true -> holdsR rho c2 = true ->
               evalR rho (coerce v1) = evalR rho (coerce v2)).
Proof.
  intros Hself Hsolver Hnone.
  rewrite (val_first self p sv w Hself Hsolver Hnone). simpl.
  eexists _, _. split; [reflexivity|].
  split; [apply lookup_insert_eq|]. simpl.
  intros rho [_ Himp]%satisfiesR_app. split.
  - exact (proj1 (satisfiesR_implications _ _ _ _) Himp).
  - intros c1 v1 c2 v2.
    exact (implications_agree rho _ coerce _ c1 v1 c2 v2 Himp).
Qed.

(** With x = 5 the handle cannot be 1: the second condition holds and
    pins it to 2. *)
Lemma val_pins_value_witness :
  exists sv',
    fst (val 0%nat Demo.world) = Ret (Real "auxPiecewiseVal_0")
    /\ solvers (snd (val 0%nat Demo.world)) !! 0%nat = Some sv'
    /\ ~ satisfiesR (assignR "auxPiecewiseVal_0" 1%R Sample.rho5)
                    (MySolver.assertions sv').
Proof.
  assert (Hself : instances Demo.world !! 0%nat = Some Sample.p0)
    by (vm_compute; reflexivity).
  assert (Hsolver : solvers Demo.world !! Piecewise.s Sample.p0
                    = Some MySolver.new)
    by (vm_compute; reflexivity).
  destruct (val_pins_value 0%nat Sample.p0 MySolver.new Demo.world
              Hself Hsolver eq_refl) as (h & sv' & Hh & Hsv & Hsem).
  assert (Hh' : fst (val 0%nat Demo.world) = Ret (Real "auxPiecewiseVal_0"))
    by (vm_compute; reflexivity).
  assert (h = Real "auxPiecewiseVal_0") as -> by congruence.
  exists sv'. split; [exact Hh'|]. split; [exact Hsv|].
  intros Hsat. destruct (Hsem _ Hsat) as [Hpin _].
  specialize (Hpin (Ge Demo.x (NumVal (PyInt 0))) (Lit (PyInt 2))).
  simpl evalR in Hpin. rewrite assignR_same, Q2R_inject_Z in Hpin.
  assert (1 = 2)%R; [|lra]. apply Hpin.
  - apply list_elem_of_further, list_elem_of_here.
  - by apply sample_x_nonneg.
Defined.

(** X5: after a multiplication by a term [e], every assignment of real
    numbers that meets the constraints of the instance's solver gives the
    auxiliary the product of [e] with the value paired with any condition
    that holds; and after a multiplication by a number [k] of an instance
    not yet materialised, the returned term denotes [k] times that
    value. *)
Theorem mul_pins_product self p sv w :
  instances w !! self = Some p ->
  solvers w !! Piecewise.s p = Some sv ->
  (forall e, exists aux sv',
     fst (__mul__ self (Sym e) w) = Ret aux
     /\ solvers (snd (__mul__ self (Sym e) w)) !! Piecewise.s p = Some sv'
     /\ forall (rho : RealModel) c v,
          satisfiesR rho (MySolver.assertions sv') ->
          (c, v) ∈ Piecewise.vals p -> holdsR rho c = true ->
          evalR rho aux = (evalR rho (coerce v) * evalR rho e)%R)
  /\ (Piecewise.val_def p = None ->
      forall k, exists r sv',
        fst (__mul__ self (Lit k) w) = Ret r
        /\ solvers (snd (__mul__ self (Lit k) w)) !! Piecewise.s p = Some sv'
        /\ forall (rho : RealModel) c v,
             satisfiesR rho (MySolver.assertions sv') ->
             (c, v) ∈ Piecewise.vals p -> holdsR rho c = true ->
             evalR rho r = (evalR rho (coerce v) * Q2R (num_Q k))%R).
Proof.
  intros Hself Hsolver. split.
  - intros e. rewrite (mul_symbolic self p sv w Hself Hsolver e). simpl.
    eexists _, _. split; [reflexivity|].
    split; [apply lookup_insert_eq|]. simpl.
    intros rho c v [_ Himp]%satisfiesR_app Hin Hc.
    rewrite satisfiesR_implications in Himp.
    pose proof (Himp c v Hin Hc) as E. simpl in E |- *. by rewrite E.
  - intros Hnone k. unfold __mul__, bind.
    rewrite (val_first self p sv w Hself Hsolver Hnone). simpl.
    eexists _, _. split; [reflexivity|].
    split; [apply lookup_insert_eq|]. simpl.
    intros rho c v [_ Himp]%satisfiesR_app Hin Hc.
    rewrite satisfiesR_implications in Himp.
    pose proof (Himp c v Hin Hc) as E. simpl in E |- *. by rewrite E.
Qed.

(** With x = 5 the auxiliary of a multiplication by x cannot be 7: the
    second condition holds and pins it to 2 * 5. *)
Lemma mul_pins_product_witness :
  exists sv',
    fst (__mul__ 0%nat (Sym Demo.x) Demo.world)
    = Ret (Real "auxPiecewiseMul_p_0,0")
    /\ solvers (snd (__mul__ 0%nat (Sym Demo.x) Demo.world)) !! 0%nat
       = Some sv'
    /\ ~ satisfiesR (assignR "auxPiecewiseMul_p_0,0" 7%R Sample.rho5)
                    (MySolver.assertions sv').
Proof.
  assert (Hself : instances Demo.world !! 0%nat = Some Sample.p0)
    by (vm_compute; reflexivity).
  assert (Hsolver : solvers Demo.world !! Piecewise.s Sample.p0
                    = Some MySolver.new)
    by (vm_compute; reflexivity).
  destruct (mul_pins_product 0%nat Sample.p0 MySolver.new Demo.world
              Hself Hsolver) as [Hsym _].
  destruct (Hsym Demo.x) as (aux & sv' & Haux & Hsv & Hsem).
  assert (Haux' : fst (__mul__ 0%nat (Sym Demo.x) Demo.world)
                  = Ret (Real "auxPiecewiseMul_p_0,0"))
    by (vm_compute; reflexivity).
  assert (aux = Real "auxPiecewiseMul_p_0,0") as -> by congruence.
  exists sv'. split; [exact Haux'|]. split; [exact Hsv|].
  intros Hsat.
  specialize (Hsem _ (Ge Demo.x (NumVal (PyInt 0))) (Lit (PyInt 2)) Hsat).
  simpl evalR in Hsem.
  rewrite assignR_same, assignR_other, Q2R_inject_Z in Hsem by done.
  unfold Sample.rho5 in Hsem.
  assert (7 = 2 * 5)%R; [|lra]. apply Hsem.
  - apply list_elem_of_further, list_elem_of_here.
  - by apply sample_x_nonneg.
Defined.

(** X6: after an addition that returns, every assignment of real numbers
    that meets the constraints of the instance's solver gives the
    auxiliary, for any condition that holds, the sum that Python computed
    for the pair; that sum denotes value + operand when one of the two is
    a term or both are ints. *)
Theorem add_pins_sum float_add self p sv w other :
  instances w !! self = Some p ->
  solvers w !! Piecewise.s p = Some sv ->
  sums_defined float_add other (Piecewise.vals p) ->
  exists aux sv',
    fst (__add__ float_add self other w) = Ret aux
    /\ solvers (snd (__add__ float_add self other w)) !! Piecewise.s p
       = Some sv'
    /\ forall (rho : RealModel) c v,
         satisfiesR rho (MySolver.assertions sv') ->
         (c, v) ∈ Piecewise.vals p -> holdsR rho c = true ->
         (exists sum, py_add float_add v other = inr sum
                      /\ evalR rho aux = evalR rho (coerce sum))
         /\ (exact_sum v other = true ->
             evalR rho aux
             = (evalR rho (coerce v) + evalR rho (coerce other))%R).
Proof.
  intros Hself Hsolver Hdef.
  rewrite (add_any self p sv w Hself Hsolver float_add other).
  destruct (add_constraints_defined float_add
              (Real (add_name (Piecewise.id p) (Piecewise.aux_id p)))
              other _ Hdef) as [Hnone HF].
  rewrite Hnone. simpl.
  eexists _, _. split; [reflexivity|].
  split; [apply lookup_insert_eq|]. simpl.
  intros rho c v [_ Himp]%satisfiesR_app Hin Hc.
  destruct (satisfiesR_sums _ _ _ _ _ _ HF Himp c v Hin Hc)
    as (sum & Hsum & Haux).
  split; [by exists sum|]. intros Hex.
  destruct (py_add_exact float_add v other Hex) as (sum' & Hsum' & Hsem).
  assert (sum = sum') as -> by congruence.
  etrans; [exact Haux | apply Hsem].
Qed.

(** With x = 5 the auxiliary of an addition of 3 cannot be 4: the second
    condition holds and pins it to 2 + 3. *)
Lemma add_pins_sum_witness :
  exists sv',
    sums_defined Demo.exact_add (Lit (PyInt 3)) Demo.sign_vals
    /\ fst (__add__ Demo.exact_add 0%nat (Lit (PyInt 3)) Demo.world)
       = Ret (Real "auxPiecewiseAdd_0,0")
    /\ solvers (snd (__add__ Demo.exact_add 0%nat (Lit (PyInt 3)) Demo.world))
         !! 0%nat = Some sv'
    /\ ~ satisfiesR (assignR "auxPiecewiseAdd_0,0" 4%R Sample.rho5)
                    (MySolver.assertions sv').
Proof.
  assert (Hself : instances Demo.world !! 0%nat = Some Sample.p0)
    by (vm_compute; reflexivity).
  assert (Hsolver : solvers Demo.world !! Piecewise.s Sample.p0
                    = Some MySolver.new)
    by (vm_compute; reflexivity).
  assert (Hdef : sums_defined Demo.exact_add (Lit (PyInt 3))
                              (Piecewise.vals Sample.p0)).
  { apply sums_defined_exact. intros c v Hin. simpl in Hin.
    apply elem_of_cons in Hin as [[= -> ->]|Hin]; [done|].
    by apply list_elem_of_singleton in Hin as [= -> ->]. }
  destruct (add_pins_sum Demo.exact_add 0%nat Sample.p0 MySolver.new Demo.world
              (Lit (PyInt 3)) Hself Hsolver Hdef)
    as (aux & sv' & Haux & Hsv & Hsem).
  assert (Haux' : fst (__add__ Demo.exact_add 0%nat (Lit (PyInt 3)) Demo.world)
                  = Ret (Real "auxPiecewiseAdd_0,0"))
    by (vm_compute; reflexivity).
  assert (aux = Real "auxPiecewiseAdd_0,0") as -> by congruence.
  exists sv'. split; [exact Hdef|]. split; [exact Haux'|].
  split; [exact Hsv|]. intros Hsat.
  destruct (Hsem _ (Ge Demo.x (NumVal (PyInt 0))) (Lit (PyInt 2)) Hsat)
    as [_ Hex].
  - apply list_elem_of_further, list_elem_of_here.
  - by apply sample_x_nonneg.
  - specialize (Hex eq_refl). simpl evalR in Hex.
    rewrite assignR_same, !Q2R_inject_Z in Hex. lra.
Defined.

(** ** The registered implications take no assignment away *)

(** A term that does not mention an unknown does not depend on it. *)
Lemma evalR_assign n r rho :
  (forall e, mentions n e = false -> evalR (assignR n r rho) e = evalR rho e)
  /\ (forall b, mentions_cond n b = false ->
                holdsR (assignR n r rho) b = holdsR rho b).
Proof.
  apply term_mutind; simpl; intros;
    repeat match goal with
           | H : _ || _ = false |- _ => apply orb_false_elim in H as [? ?]
           end;
    repeat match goal with
           | IH : ?P -> _ = _, H : ?P |- _ => rewrite (IH H); clear IH
           end;
    try done.
  unfold assignR. by match goal with H : _ = false |- _ => rewrite H end.
Qed.

Lemma satisfiesR_assign n r rho cs :
  Forall (fun c => mentions_cond n c = false) cs ->
  satisfiesR rho cs -> satisfiesR (assignR n r rho) cs.
Proof.
  unfold satisfiesR. rewrite !Forall_forall. intros Hno Hsat c Hc.
  rewrite (proj2 (evalR_assign n r rho) c (Hno c Hc)). by apply Hsat.
Qed.

Lemma true_conditionsR_app rho (a b : CondVals) :
  true_conditionsR rho (a ++ b)
  = (true_conditionsR rho a + true_conditionsR rho b)%nat.
Proof. unfold true_conditionsR. by rewrite filter_app, length_app. Qed.

(** Where no condition holds the pinning constraints are met whatever the
    unknown is. *)
Lemma pins_vacuous n rho (vals : CondVals) cs :
  Forall2 (pins n) vals cs ->
  true_conditionsR rho vals = 0%nat ->
  forall r, satisfiesR (assignR n r rho) cs.
Proof.
  induction 1 as [|cv c vals cs (t & -> & Hc & Ht) _ IH]; intros Hz r.
  - constructor.
  - rewrite true_conditionsR_cons in Hz. constructor.
    + simpl. rewrite (proj2 (evalR_assign n r rho) _ Hc).
      destruct (holdsR rho (fst cv)); [lia | done].
    + apply IH. destruct (holdsR rho (fst cv)); lia.
Qed.

(** Where at most one condition holds they are met once the unknown is
    given the value of the term of that condition. *)
Lemma pins_extend n rho (vals : CondVals) cs :
  Forall2 (pins n) vals cs ->
  (true_conditionsR rho vals <= 1)%nat ->
  exists r, satisfiesR (assignR n r rho) cs.
Proof.
  induction 1 as [|cv c vals cs (t & -> & Hc & Ht) HF IH]; intros Hle.
  - exists 0%R. constructor.
  - rewrite true_conditionsR_cons in Hle.
    destruct (holdsR rho (fst cv)) eqn:Hcv.
    + exists (evalR rho t). constructor.
      * simpl. rewrite (proj2 (evalR_assign n _ rho) _ Hc), Hcv. simpl.
        rewrite assignR_same, (proj1 (evalR_assign n _ rho) _ Ht).
        apply Reqb_refl.
      * apply (pins_vacuous n rho vals); [done | lia].
    + destruct IH as [r Hr]; [lia|]. exists r. constructor; [|done].
      simpl. by rewrite (proj2 (evalR_assign n r rho) _ Hc), Hcv.
Qed.

Lemma pins_implications n (f : Value -> ArithRef) (vals : CondVals) :
  (forall c v, (c, v) ∈ vals ->
     mentions_cond n c = false /\ mentions n (f v) = false) ->
  Forall2 (pins n) vals (implications (Real n) f vals).
Proof.
  induction vals as [|[c v] vals IH]; intros Hno; simpl; constructor.
  - destruct (Hno c v) as [Hc Hv]; [apply list_elem_of_here|].
    by exists (f v).
  - apply IH. intros c' v' Hin. apply Hno. by apply list_elem_of_further.
Qed.

Lemma mentions_py_add float_add n v other sum :
  py_add float_add v other = inr sum ->
  mentions n (coerce v) = false -> mentions n (coerce other) = false ->
  mentions n (coerce sum) = false.
Proof.
  destruct v as [x|a], other as [y|b]; simpl; intros Hsum H1 H2;
    try (injection Hsum as <-; simpl; by rewrite ?H1, ?H2).
  destruct (num_add float_add x y); by simplify_eq.
Qed.

Lemma pins_sums float_add n other (vals : CondVals) cs :
  Forall2 (add_implication float_add (Real n) other) vals cs ->
  unmentioned n vals -> mentions n (coerce other) = false ->
  Forall2 (pins n) vals cs.
Proof.
  induction 1 as [|[c v] c0 vals cs (sum & Hsum & ->) _ IH]; intros Hno Hother.
  - constructor.
  - destruct (Hno c v) as [Hc Hv]; [apply list_elem_of_here|].
    constructor.
    + exists (coerce sum). split; [done|]. split; [done|].
      by apply (mentions_py_add float_add n v other).
    + apply IH; [|done]. intros c' v' Hin. apply Hno.
      by apply list_elem_of_further.
Qed.

(** Under every assignment of real numbers exactly one of x < 0 and
    x >= 0 holds. *)
Lemma sign_vals_partitionR rho : true_conditionsR rho Demo.sign_vals = 1%nat.
Proof.
  unfold Demo.sign_vals. rewrite !true_conditionsR_cons. simpl.
  unfold true_conditionsR, Rltb, Rleb. simpl.
  destruct (Rlt_dec _ _), (Rle_dec _ _); simpl; try done; lra.
Qed.

(** X7: the first [val()] takes no assignment away from the solver when the
    conditions are exclusive.  If the name of the handle occurs neither in
    the list nor in the constraints already registered, every assignment
    of real numbers that meets those constraints and makes at most one
    condition hold still meets the constraints after [val()], once the
    handle is given a suitable value; where no condition holds, any value
    of the handle does. *)
Theorem val_keeps_assignments self p sv w (rho : RealModel) :
  instances w !! self = Some p ->
  solvers w !! Piecewise.s p = Some sv ->
  Piecewise.val_def p = None ->
  unmentioned (val_name (Piecewise.id p)) (Piecewise.vals p) ->
  Forall (fun c => mentions_cond (val_name (Piecewise.id p)) c = false)
         (MySolver.assertions sv) ->
  satisfiesR rho (MySolver.assertions sv) ->
  exists sv',
    solvers (snd (val self w)) !! Piecewise.s p = Some sv'
    /\ ((true_conditionsR rho (Piecewise.vals p) <= 1)%nat ->
        exists r,
          satisfiesR (assignR (val_name (Piecewise.id p)) r rho)
                     (MySolver.assertions sv'))
    /\ (true_conditionsR rho (Piecewise.vals p) = 0%nat ->
        forall r,
          satisfiesR (assignR (val_name (Piecewise.id p)) r rho)
                     (MySolver.assertions sv')).
Proof.
  intros Hself Hsolver Hnone Hvals Hold Hsat.
  rewrite (val_first self p sv w Hself Hsolver Hnone). simpl.
  eexists. split; [apply lookup_insert_eq|]. simpl.
  pose proof (pins_implications (val_name (Piecewise.id p)) coerce
                (Piecewise.vals p) Hvals) as Hpins.
  split.
  - intros Hle. destruct (pins_extend _ rho _ _ Hpins Hle) as [r Hr].
    exists r. apply satisfiesR_app. split; [by apply satisfiesR_assign | done].
  - intros Hz r. apply satisfiesR_app.
    split; [by apply satisfiesR_assign | by apply (pins_vacuous _ rho _ _ Hpins)].
Qed.

(** The client's constraint x >= 0 and the assignment x = 5: after
    [val()] the constraints are met with a suitable value of the handle. *)
Lemma val_keeps_assignments_witness :
  satisfiesR Sample.rho5 (MySolver.assertions Demo.ambient)
  /\ exists sv',
       solvers (snd (val 0%nat Demo.world_ambient)) !! 0%nat = Some sv'
       /\ exists r,
            satisfiesR (assignR "auxPiecewiseVal_0" r Sample.rho5)
                       (MySolver.assertions sv').
Proof.
  assert (Hself : instances Demo.world_ambient !! 0%nat = Some Sample.p0)
    by (vm_compute; reflexivity).
  assert (Hsolver : solvers Demo.world_ambient !! Piecewise.s Sample.p0
                    = Some Demo.ambient)
    by (vm_compute; reflexivity).
  assert (Hvals : unmentioned (val_name (Piecewise.id Sample.p0))
                              (Piecewise.vals Sample.p0)).
  { intros c v Hin. simpl in Hin.
    apply elem_of_cons in Hin as [[= -> ->]|Hin]; [by vm_compute|].
    apply list_elem_of_singleton in Hin as [= -> ->]. by vm_compute. }
  assert (Hold : Forall (fun c => mentions_cond
                                    (val_name (Piecewise.id Sample.p0)) c
                                  = false)
                        (MySolver.assertions Demo.ambient)).
  { repeat constructor. }
  assert (Hsat : satisfiesR Sample.rho5 (MySolver.assertions Demo.ambient)).
  { constructor; [|constructor]. simpl. apply Rleb_true.
    rewrite Q2R_inject_Z. unfold Sample.rho5. lra. }
  destruct (val_keeps_assignments 0%nat Sample.p0 Demo.ambient
              Demo.world_ambient Sample.rho5 Hself Hsolver eq_refl
              Hvals Hold Hsat)
    as (sv' & Hsv & Hone & _).
  split; [exact Hsat|]. exists sv'. split; [exact Hsv|]. apply Hone.
  simpl. rewrite sign_vals_partitionR. lia.
Defined.

(** X8: the same holds of [__add__] for any operand, whether the call
    returns or a sum raises, and of [__mul__] for a term: if the name of
    the new auxiliary occurs neither in the list, nor in the operand, nor
    in the constraints already registered, every assignment of real
    numbers that meets those constraints and makes at most one condition
    hold still meets the constraints after the call, once the auxiliary is
    given a suitable value. *)
Theorem arithmetic_keeps_assignments float_add self p sv w (rho : RealModel)
    other e :
  instances w !! self = Some p ->
  solvers w !! Piecewise.s p = Some sv ->
  let na := add_name (Piecewise.id p) (Piecewise.aux_id p) in
  let nm := mul_name (Piecewise.name p) (Piecewise.id p)
                     (Piecewise.aux_id p) in
  satisfiesR rho (MySolver.assertions sv) ->
  (true_conditionsR rho (Piecewise.vals p) <= 1)%nat ->
  (unmentioned na (Piecewise.vals p) ->
   mentions na (coerce other) = false ->
   Forall (fun c => mentions_cond na c = false) (MySolver.assertions sv) ->
   exists sv' r,
     solvers (snd (__add__ float_add self other w)) !! Piecewise.s p
     = Some sv'
     /\ satisfiesR (assignR na r rho) (MySolver.assertions sv'))
  /\ (unmentioned nm (Piecewise.vals p) ->
      mentions nm e = false ->
      Forall (fun c => mentions_cond nm c = false) (MySolver.assertions sv) ->
      exists sv' r,
        solvers (snd (__mul__ self (Sym e) w)) !! Piecewise.s p = Some sv'
        /\ satisfiesR (assignR nm r rho) (MySolver.assertions sv')).
Proof.
  intros Hself Hsolver na nm Hsat Hle. split.
  - intros Hvals Hother Hold.
    rewrite (add_any self p sv w Hself Hsolver float_add other). simpl.
    fold na.
    destruct (add_constraints_spec float_add (Real na) other (Piecewise.vals p))
      as (done & rest & Hsplit & HF & _).
    assert (Hpins : Forall2 (pins na) done
                      (fst (add_constraints float_add (Real na) other
                              (Piecewise.vals p)))).
    { apply (pins_sums float_add na other); [done | | done].
      intros c v Hin. apply Hvals. rewrite Hsplit.
      apply elem_of_app. by left. }
    destruct (pins_extend na rho _ _ Hpins) as [r Hr].
    { rewrite Hsplit, true_conditionsR_app in Hle. lia. }
    eexists _, r. split; [apply lookup_insert_eq|]. simpl.
    apply satisfiesR_app. split; [by apply satisfiesR_assign | done].
  - intros Hvals He Hold.
    rewrite (mul_symbolic self p sv w Hself Hsolver e). simpl.
    destruct (pins_extend nm rho _ _
                (pins_implications nm (fun v => Mul (coerce v) e)
                   (Piecewise.vals p)
                   (fun c v Hin =>
                      conj (proj1 (Hvals c v Hin))
                           (eq_trans (f_equal (fun b => orb b (mentions nm e))
                                              (proj2 (Hvals c v Hin)))
                                     He)))
                Hle) as [r Hr].
    eexists _, r. split; [apply lookup_insert_eq|]. simpl.
    apply satisfiesR_app. split; [by apply satisfiesR_assign | done].
Qed.

(** The same client and assignment: after the addition of the float 0.5
    the constraints are met with a suitable value of the auxiliary. *)
Lemma arithmetic_keeps_assignments_witness :
  satisfiesR Sample.rho5 (MySolver.assertions Demo.ambient)
  /\ exists sv' r,
       solvers (snd (__add__ Demo.exact_add 0%nat (Lit (PyFloat (1 # 2)))
                       Demo.world_ambient)) !! 0%nat
       = Some sv'
       /\ satisfiesR (assignR "auxPiecewiseAdd_0,0" r Sample.rho5)
                     (MySolver.assertions sv').
Proof.
  assert (Hself : instances Demo.world_ambient !! 0%nat = Some Sample.p0)
    by (vm_compute; reflexivity).
  assert (Hsolver : solvers Demo.world_ambient !! Piecewise.s Sample.p0
                    = Some Demo.ambient)
    by (vm_compute; reflexivity).
  assert (Hsat : satisfiesR Sample.rho5 (MySolver.assertions Demo.ambient)).
  { constructor; [|constructor]. simpl. apply Rleb_true.
    rewrite Q2R_inject_Z. unfold Sample.rho5. lra. }
  assert (Hle : (true_conditionsR Sample.rho5 (Piecewise.vals Sample.p0)
                 <= 1)%nat).
  { simpl. rewrite sign_vals_partitionR. lia. }
  destruct (arithmetic_keeps_assignments Demo.exact_add 0%nat Sample.p0
              Demo.ambient Demo.world_ambient Sample.rho5
              (Lit (PyFloat (1 # 2))) Demo.x
              Hself Hsolver Hsat Hle) as [Hadd _].
  split; [exact Hsat|]. apply Hadd.
  - intros c v Hin. simpl in Hin.
    apply elem_of_cons in Hin as [[= -> ->]|Hin]; [by vm_compute|].
    apply list_elem_of_singleton in Hin as [= -> ->]. by vm_compute.
  - reflexivity.
  - repeat constructor.
Defined.

(** ** The attributes of an instance *)

(** X9: whatever calls follow, an instance keeps its solver, its list, its
    id and its name, its auxiliary counter never goes down, and a handle
    once cached stays cached: [val()] then returns that handle and leaves
    the world as it is. *)
Theorem instance_attributes_persist z3_check float_add cs w l p :
  instances w !! l = Some p ->
  exists p',
    instances (run z3_check float_add cs w) !! l = Some p'
    /\ evolves p p'
    /\ forall h, Piecewise.val_def p = Some h ->
         val l (run z3_check float_add cs w)
         = (Ret h, run z3_check float_add cs w).
Proof.
  intros Hl.
  destruct (run_evolves z3_check float_add cs w l p Hl) as (p' & Hp' & Hev).
  exists p'. split; [done|]. split; [done|].
  intros h Hh. apply (val_cached l p' _ Hp').
  destruct Hev as (_ & _ & _ & _ & _ & Hcache). by apply Hcache.
Qed.

Lemma instance_attributes_persist_witness :
  exists p',
    instances (run Demo.engine Demo.exact_add
                 [CallAdd 0%nat (Lit (PyInt 3)); CallVerify 0%nat None]
                 Demo.world_val) !! 0%nat = Some p'
    /\ Piecewise.val_def p' = Some (Real "auxPiecewiseVal_0").
Proof.
  assert (Hl : instances Demo.world_val !! 0%nat
               = Some (set_val_def (Some (Real "auxPiecewiseVal_0")) Sample.p0))
    by (vm_compute; reflexivity).
  destruct (instance_attributes_persist Demo.engine Demo.exact_add
              [CallAdd 0%nat (Lit (PyInt 3)); CallVerify 0%nat None]
              Demo.world_val 0%nat _ Hl) as (p' & Hp' & Hev & _).
  exists p'. split; [exact Hp'|].
  destruct Hev as (_ & _ & _ & _ & _ & Hcache). by apply Hcache.
Defined.

(** ** The class counter counts the instances *)

Lemma step_dense w w' : step w w' -> dense w -> dense w'.
Proof.
  intros [Hcore|[(self & q & q' & ns & Hself & Hev & Hcore)|(s & name & vals & ->)]]
         [Hsize Hall].
  - injection Hcore as Hid Hinst _. unfold dense. by rewrite Hid, Hinst.
  - injection Hcore as Hid Hinst _. unfold dense. rewrite Hid, Hinst. split.
    + by rewrite map_size_insert_Some.
    + intros i Hi. destruct (Hall i Hi) as (l & p & Hp & Hpid).
      destruct (decide (l = self)) as [->|Hne].
      * exists self, q'. rewrite lookup_insert_eq. split; [done|].
        destruct Hev as (_ & _ & -> & _). by simplify_eq.
      * exists l, p. by rewrite lookup_insert_ne.
  - unfold dense. simpl. split.
    + rewrite map_size_insert_None by apply fresh_instance_None. lia.
    + intros i Hi. destruct (decide (i = Piecewise_id w)) as [->|Hne].
      * eexists _, _. by rewrite lookup_insert_eq.
      * destruct (Hall i) as (l & p & Hp & Hpid); [lia|].
        exists l, p. split; [|done].
        rewrite lookup_insert_ne; [done|]. intros <-.
        by rewrite fresh_instance_None in Hp.
Qed.

(** X10: in every world reached through the class, the class counter is
    the number of instances constructed so far and every number below it
    is the id of an instance: ids are handed out 0, 1, 2, ... without
    gaps, and calls that raise (a constructor call with the wrong number
    of arguments, [from_var]) consume none. *)
Theorem ids_are_dense z3_check float_add w :
  reachable z3_check float_add w ->
  Piecewise_id w = size (instances w)
  /\ forall i, (i < Piecewise_id w)%nat ->
       exists l p, instances w !! l = Some p /\ Piecewise.id p = i.
Proof.
  intros [cs ->]. apply (run_keeps z3_check float_add dense).
  - intros c w Hw. apply (step_dense w); [apply step_exec | done].
  - split; [done|]. simpl. lia.
Qed.

Lemma ids_are_dense_witness :
  Piecewise_id Demo.world2 = 2%nat
  /\ size (instances Demo.world2) = 2%nat.
Proof.
  assert (Hreach : reachable Demo.engine Demo.exact_add Demo.world2).
  { exists (Demo.setup
            ++ [CallPiecewise [ObjSolver 0%nat; ObjStr "p";
                               ObjVals Demo.sign_vals]]).
    reflexivity. }
  destruct (ids_are_dense Demo.engine Demo.exact_add Demo.world2 Hreach)
    as [Hsize _].
  split; [reflexivity|]. rewrite <- Hsize. reflexivity.
Defined.

(** ** What a call can do to the solvers *)

Lemma grows_refl sv : grows sv sv.
Proof. by split. Qed.

Lemma grows_trans sv1 sv2 sv3 : grows sv1 sv2 -> grows sv2 sv3 -> grows sv1 sv3.
Proof.
  intros [Hm1 Ha1] [Hm2 Ha2]. split; [congruence | by etrans].
Qed.

Lemma solvers_grow_refl w : solvers_grow w w.
Proof. intros l sv Hl. exists sv. split; [done | apply grows_refl]. Qed.

Lemma solvers_grow_trans w1 w2 w3 :
  solvers_grow w1 w2 -> solvers_grow w2 w3 -> solvers_grow w1 w3.
Proof.
  intros H12 H23 l sv Hl. destruct (H12 l sv Hl) as (sv2 & Hl2 & Hg2).
  destruct (H23 l sv2 Hl2) as (sv3 & Hl3 & Hg3).
  exists sv3. split; [done | by eapply grows_trans].
Qed.

(** Only the solvers count. *)
Lemma solvers_grow_same w1 w2 w' :
  solvers w1 = solvers w2 -> solvers_grow w2 w' -> solvers_grow w1 w'.
Proof. intros Heq H l sv Hl. rewrite Heq in Hl. by apply H. Qed.

Lemma solvers_grow_insert w l sv sv' :
  solvers w !! l = Some sv -> grows sv sv' ->
  solvers_grow w (set_solvers (<[l := sv']> (solvers w)) w).
Proof.
  intros Hl Hg l0 sv0 Hl0. simpl. destruct (decide (l0 = l)) as [->|Hne].
  - exists sv'. rewrite lookup_insert_eq. by simplify_eq.
  - exists sv0. rewrite lookup_insert_ne by done.
    split; [done | apply grows_refl].
Qed.

Lemma solvers_grow_new w sv' :
  solvers_grow w
    (set_solvers (<[fresh (dom (solvers w)) := sv']> (solvers w)) w).
Proof.
  intros l sv Hl. exists sv. simpl. split; [|apply grows_refl].
  rewrite lookup_insert_ne; [done|]. intros <-.
  pose proof (is_fresh (dom (solvers w))) as Hfresh.
  apply Hfresh, elem_of_dom. by eexists.
Qed.

Lemma solvers_grow_bind {A B} (m : M A) (k : A -> M B) w :
  solvers_grow w (snd (m w)) ->
  (forall a w', solvers_grow w' (snd (k a w'))) ->
  solvers_grow w (snd (bind m k w)).
Proof.
  intros Hm Hk. unfold bind. destruct (m w) as [[a|e] w']; simpl in *.
  - eapply solvers_grow_trans; [exact Hm | apply Hk].
  - exact Hm.
Qed.

Lemma solvers_grow_pure {A} (m : M A) w : pure m -> solvers_grow w (snd (m w)).
Proof. intros H. rewrite H. apply solvers_grow_refl. Qed.

Lemma solvers_grow_solver_add l c w : solvers_grow w (snd (solver_add l c w)).
Proof.
  unfold solver_add, bind, get_solver.
  destruct (solvers w !! l) as [sv|] eqn:Hl; simpl.
  - apply (solvers_grow_insert w l sv); [done|].
    split; [done | by apply prefix_app_r].
  - apply solvers_grow_refl.
Qed.

Lemma solvers_grow_for_each {A} (xs : list A) body :
  (forall x w, solvers_grow w (snd (body x w))) ->
  forall w, solvers_grow w (snd (for_each xs body w)).
Proof.
  intros Hb. induction xs as [|x xs IH]; intros w; simpl.
  - apply solvers_grow_refl.
  - apply solvers_grow_bind; [apply Hb | intros _; apply IH].
Qed.

(** A registration loop only appends to the solvers. *)
Lemma register_grows {A} (xs : list A) body (h : ArithRef) w :
  (forall x w, solvers_grow w (snd (body x w))) ->
  solvers_grow w (snd ((for_each xs body ;; ret h) w)).
Proof.
  intros Hb. apply solvers_grow_bind.
  - by apply solvers_grow_for_each.
  - intros _ w'. apply solvers_grow_refl.
Qed.

Lemma solvers_grow_val self w : solvers_grow w (snd (val self w)).
Proof.
  unfold val, bind at 1, get_instance.
  destruct (instances w !! self) as [p|]; [|apply solvers_grow_refl].
  destruct (Piecewise.val_def p) as [h|]; [apply solvers_grow_refl|].
  unfold bind at 1, z3_Real. unfold bind at 1, put_instance.
  eapply solvers_grow_same; [|apply register_grows]; [done|].
  intros cv w'. apply solvers_grow_solver_add.
Qed.

Lemma solvers_grow_mul self other w :
  solvers_grow w (snd (__mul__ self other w)).
Proof.
  destruct other as [k|e]; unfold __mul__.
  - pose proof (solvers_grow_val self w) as Hval.
    unfold bind. by destruct (val self w) as [[h|e] w'].
  - unfold bind at 1, get_instance.
    destruct (instances w !! self) as [p|]; [|apply solvers_grow_refl].
    unfold bind at 1, z3_Real. unfold bind at 1, put_instance.
    eapply solvers_grow_same; [|apply register_grows]; [done|].
    intros cv w'. apply solvers_grow_solver_add.
Qed.

Lemma solvers_grow_add float_add self other w :
  solvers_grow w (snd (__add__ float_add self other w)).
Proof.
  unfold __add__, bind at 1, get_instance.
  destruct (instances w !! self) as [p|]; [|apply solvers_grow_refl].
  unfold bind at 1, z3_Real. unfold bind at 1, put_instance.
  eapply solvers_grow_same; [|apply register_grows]; [done|].
  intros cv w'. apply solvers_grow_bind.
  - apply solvers_grow_pure, pure_lift.
  - intros sum w''. apply solvers_grow_solver_add.
Qed.

Lemma solvers_grow_call args w :
  solvers_grow w (snd (Piecewise_call args w)).
Proof.
  unfold Piecewise_call. repeat (case_match; try apply solvers_grow_refl).
  intros ? ? ?. eexists. split; [done | apply grows_refl].
Qed.

Lemma solvers_grow_verify z3_check self s w :
  solvers_grow w (snd (verify z3_check self s w)).
Proof.
  destruct (instances w !! self) as [p|] eqn:Hself.
  - destruct (proof_context s w) as [[l sv]|] eqn:Hctx.
    + rewrite (verify_closed z3_check self s p l sv w Hself Hctx). simpl.
      destruct s as [l0|]; simpl in Hctx.
      * destruct (solvers w !! l0) as [sv0|] eqn:Hl0; simplify_eq/=.
        by apply (solvers_grow_insert w l sv).
      * simplify_eq/=. apply solvers_grow_new.
    + destruct s as [l0|]; simpl in Hctx; [|done].
      destruct (solvers w !! l0) as [sv0|] eqn:Hl0; [done|].
      unfold verify, bind at 1, ret at 1, bind at 1, get_instance.
      rewrite Hself. unfold bind at 1, solver_push, bind, get_solver.
      rewrite Hl0. apply solvers_grow_refl.
  - unfold verify, bind at 1. destruct s as [l0|].
    + unfold ret at 1, bind, get_instance. rewrite Hself.
      apply solvers_grow_refl.
    + unfold MySolver_new at 1, bind, get_instance. simpl. rewrite Hself.
      apply solvers_grow_new.
Qed.

Lemma solvers_grow_exec z3_check float_add c w :
  solvers_grow w (exec z3_check float_add c w).
Proof.
  destruct c; simpl.
  - apply solvers_grow_new.
  - apply solvers_grow_call.
  - rewrite from_var_closed. apply solvers_grow_refl.
  - apply solvers_grow_val.
  - apply solvers_grow_mul.
  - apply solvers_grow_add.
  - apply solvers_grow_verify.
Qed.

(** X11: whatever calls are made, a solver stays in the store with the
    scopes it had open and the constraints it held, in place; the class
    only ever appends constraints.  It pops no scope that it did not push,
    leaves none of its own open and drops no constraint of its caller. *)
Theorem solvers_only_grow z3_check float_add cs w l sv :
  solvers w !! l = Some sv ->
  exists sv',
    solvers (run z3_check float_add cs w) !! l = Some sv'
    /\ MySolver.marks sv' = MySolver.marks sv
    /\ MySolver.depth sv' = MySolver.depth sv
    /\ MySolver.assertions sv `prefix_of` MySolver.assertions sv'.
Proof.
  intros Hl.
  assert (solvers_grow w (run z3_check float_add cs w)) as Hgrow.
  { apply (run_keeps z3_check float_add (solvers_grow w));
      [|apply solvers_grow_refl].
    intros c w0 Hw0. eapply solvers_grow_trans; [exact Hw0|].
    apply solvers_grow_exec. }
  destruct (Hgrow l sv Hl) as (sv' & Hl' & Hm & Ha).
  exists sv'. repeat split; try done. unfold MySolver.depth. by rewrite Hm.
Qed.

Lemma solvers_only_grow_witness :
  exists sv',
    solvers (run Demo.engine Demo.exact_add
               [CallVal 0%nat; CallVerify 0%nat (Some 0%nat);
                CallAdd 0%nat (Lit (PyInt 3))]
               Demo.world) !! 0%nat = Some sv'
    /\ MySolver.depth sv' = 0%nat.
Proof.
  assert (Hl : solvers Demo.world !! 0%nat = Some MySolver.new)
    by (vm_compute; reflexivity).
  destruct (solvers_only_grow Demo.engine Demo.exact_add
              [CallVal 0%nat; CallVerify 0%nat (Some 0%nat);
               CallAdd 0%nat (Lit (PyInt 3))]
              Demo.world 0%nat _ Hl) as (sv' & Hsv & _ & Hd & _).
  exists sv'. split; [exact Hsv | exact Hd].
Defined.

(** ** More on [verify] *)

(** X12: called without a proof context, [verify] asks the engine about
    its query alone, in a solver of its own: the answer, and so the
    outcome, does not depend on any constraint registered elsewhere, the
    instance's solver included, and every solver of the world is left
    exactly as it was. *)
Theorem verify_default_context z3_check self p w :
  instances w !! self = Some p ->
  fst (verify z3_check self None w)
  = (if CheckSatResult_eqb (z3_check [verify_query (Piecewise.vals p)]) unsat
     then Raise (AssertionError
                   (verify_msg (z3_check [verify_query (Piecewise.vals p)])
                               (Piecewise.vals p)))
     else Ret tt)
  /\ (forall l sv, solvers w !! l = Some sv ->
        solvers (snd (verify z3_check self None w)) !! l = Some sv)
  /\ core (snd (verify z3_check self None w)) = core w.
Proof.
  intros Hself.
  rewrite (verify_closed z3_check self None p _ MySolver.new w Hself eq_refl).
  simpl. split; [done|]. split; [|done].
  intros l sv Hl. rewrite lookup_insert_ne; [done|]. intros <-.
  pose proof (is_fresh (dom (solvers w))) as Hfresh.
  apply Hfresh, elem_of_dom. by eexists.
Qed.

Lemma verify_default_context_witness :
  fst (verify Demo.engine 0%nat None Demo.world_val)
  = Raise (AssertionError (verify_msg unsat Demo.sign_vals)).
Proof.
  assert (Hself : instances Demo.world_val !! 0%nat
                  = Some (set_val_def (Some (Real "auxPiecewiseVal_0"))
                                      Sample.p0))
    by (vm_compute; reflexivity).
  destruct (verify_default_context Demo.engine 0%nat _ Demo.world_val Hself)
    as [Hout _].
  rewrite Hout. reflexivity.
Defined.

(** The term summed by [verify] denotes the number of true conditions
    under every assignment of real numbers. *)
Lemma evalR_sum_from rho vals acc :
  evalR rho (coerce
     (fold_left (fun acc e => Sym (Add (coerce acc) e))
        ((fun cv => If (fst cv) (NumVal (PyInt 1)) (NumVal (PyInt 0))) <$> vals)
        acc))
  = (evalR rho (coerce acc) + INR (true_conditionsR rho vals))%R.
Proof.
  revert acc. induction vals as [|cv vals IH]; intros acc; simpl fold_left.
  - unfold true_conditionsR. simpl. lra.
  - rewrite IH, true_conditionsR_cons, plus_INR. simpl coerce. simpl evalR.
    rewrite !Q2R_inject_Z. destruct (holdsR rho (fst cv)); simpl; lra.
Qed.

Lemma num_sat_countsR rho vals :
  evalR rho (coerce (num_sat vals)) = INR (true_conditionsR rho vals).
Proof.
  unfold num_sat, py_sum. rewrite evalR_sum_from. simpl.
  rewrite Q2R_inject_Z. lra.
Qed.

Lemma holdsR_py_ne rho v n :
  holdsR rho (py_ne v n) = negb (Reqb (evalR rho (coerce v)) (Q2R (num_Q n))).
Proof. destruct v; simpl; [|done]. unfold num_eqb. by rewrite Reqb_Q2R. Qed.

(** The query holds exactly when the number of true conditions is not 1. *)
Lemma holdsR_verify_query rho vals :
  holdsR rho (verify_query vals) = negb (true_conditionsR rho vals =? 1)%nat.
Proof.
  unfold verify_query. rewrite holdsR_py_ne, num_sat_countsR. f_equal.
  simpl num_Q. rewrite Q2R_inject_Z.
  destruct (Nat.eqb_spec (true_conditionsR rho vals) 1) as [->|Hne].
  - apply Reqb_true. simpl. lra.
  - apply not_true_is_false. intros H%Reqb_true. apply Hne.
    apply INR_eq. rewrite H. simpl. lra.
Qed.

(** The engine of the examples gives no wrong [unsat]. *)
Lemma engine_unsat_sound : unsat_sound Demo.engine.
Proof.
  intros cs. unfold Demo.engine.
  destruct cs as [|c [|? ?]]; try done.
  destruct (BoolRef_eqb c _) eqn:E; [|done]. intros _ rho Hsat.
  apply term_eqb_eq in E as ->.
  apply Forall_cons in Hsat as [Hsat _].
  by rewrite holdsR_verify_query, sign_vals_partitionR in Hsat.
Qed.

(** X13: what an outcome of [verify] tells, with an engine whose answer
    [unsat] is right.  If [verify] raises, exactly one condition holds
    under every assignment of real numbers that meets the constraints of
    the proof context; and if some such assignment makes none or several
    conditions hold, [verify] returns normally. *)
Theorem verify_raise_means_partition z3_check self s p l sv w :
  unsat_sound z3_check ->
  instances w !! self = Some p ->
  proof_context s w = Some (l, sv) ->
  ((exists e, fst (verify z3_check self s w) = Raise e) ->
   forall rho : RealModel, satisfiesR rho (MySolver.assertions sv) ->
     true_conditionsR rho (Piecewise.vals p) = 1%nat)
  /\ ((exists rho : RealModel,
         satisfiesR rho (MySolver.assertions sv)
         /\ true_conditionsR rho (Piecewise.vals p) <> 1%nat) ->
      fst (verify z3_check self s w) = Ret tt).
Proof.
  intros Hsound Hself Hctx.
  rewrite (verify_closed z3_check self s p l sv w Hself Hctx). simpl.
  set (q := verify_query (Piecewise.vals p)).
  set (r := z3_check (MySolver.assertions sv ++ [q])).
  assert (Hunsat : r = unsat -> forall rho : RealModel,
             satisfiesR rho (MySolver.assertions sv) ->
             true_conditionsR rho (Piecewise.vals p) = 1%nat).
  { intros Hr rho Hsat.
    pose proof (Hsound (MySolver.assertions sv ++ [q]) Hr rho) as Hno.
    destruct (Nat.eqb_spec (true_conditionsR rho (Piecewise.vals p)) 1)
      as [Hone|Hne]; [done|].
    destruct Hno. apply satisfiesR_app. split; [done|].
    constructor; [|constructor]. unfold q. rewrite holdsR_verify_query.
    by apply negb_true_iff, Nat.eqb_neq. }
  split.
  - intros [e He]. apply Hunsat. by destruct r.
  - intros (rho & Hsat & Hne). destruct r eqn:Hr; try done.
    destruct Hne. by apply Hunsat.
Qed.

(** On the sign of x [verify] raises, and under x = sqrt 2 exactly one
    condition holds; on x < 0 alone the assignment x = 5 makes no
    condition hold, and [verify] returns. *)
Lemma verify_raise_means_partition_witness :
  unsat_sound Demo.engine
  /\ true_conditionsR Sample.rho_sqrt2 Demo.sign_vals = 1%nat
  /\ true_conditionsR Sample.rho5 Demo.gap_vals = 0%nat
  /\ fst (verify Demo.engine 0%nat (Some 0%nat) Demo.world_gap) = Ret tt.
Proof.
  assert (Hself : instances Demo.world !! 0%nat = Some Sample.p0)
    by (vm_compute; reflexivity).
  assert (Hctx : proof_context (Some 0%nat) Demo.world
                 = Some (0%nat, MySolver.new))
    by (vm_compute; reflexivity).
  assert (Hself' : instances Demo.world_gap !! 0%nat
                   = Some (Piecewise.mk 0%nat Demo.gap_vals 0%nat "q" 0%nat
                             None))
    by (vm_compute; reflexivity).
  assert (Hctx' : proof_context (Some 0%nat) Demo.world_gap
                  = Some (0%nat, MySolver.new))
    by (vm_compute; reflexivity).
  assert (Hgap : true_conditionsR Sample.rho5 Demo.gap_vals = 0%nat).
  { unfold Demo.gap_vals. rewrite true_conditionsR_cons. simpl.
    unfold true_conditionsR, Rltb. simpl. rewrite Q2R_inject_Z.
    unfold Sample.rho5. destruct (Rlt_dec _ _); [lra | done]. }
  destruct (verify_raise_means_partition Demo.engine 0%nat (Some 0%nat)
              Sample.p0 0%nat MySolver.new Demo.world
              engine_unsat_sound Hself Hctx) as [Hraise _].
  destruct (verify_raise_means_partition Demo.engine 0%nat (Some 0%nat)
              _ 0%nat MySolver.new Demo.world_gap
              engine_unsat_sound Hself' Hctx') as [_ Hret].
  split; [exact engine_unsat_sound|]. split; [|split; [exact Hgap|]].
  - apply Hraise; [|constructor]. eexists. vm_compute. reflexivity.
  - apply Hret. exists Sample.rho5. split; [constructor|].
    simpl. rewrite Hgap. lia.
Defined.

(** X14: [verify] can be repeated: a second call on the same proof
    context, or again without one, has the outcome of the first. *)
Theorem verify_repeatable z3_check self s p l sv w :
  instances w !! self = Some p ->
  proof_context s w = Some (l, sv) ->
  fst (verify z3_check self s (snd (verify z3_check self s w)))
  = fst (verify z3_check self s w).
Proof.
  intros Hself Hctx.
  rewrite (verify_closed z3_check self s p l sv w Hself Hctx). simpl.
  set (w' := set_solvers _ w).
  destruct s as [l0|]; simpl in Hctx.
  - destruct (solvers w !! l0) as [sv0|] eqn:Hl0; [|done].
    injection Hctx as -> ->.
    assert (exists sv', solvers w' !! l = Some sv'
                        /\ MySolver.assertions sv' = MySolver.assertions sv)
      as (sv' & Hl' & Ha).
    { eexists. split; [apply lookup_insert_eq | done]. }
    rewrite (verify_closed z3_check self (Some l) p l sv' w' Hself).
    + simpl. by rewrite Ha.
    + unfold proof_context. by rewrite Hl'.
  - injection Hctx as <- <-.
    by rewrite (verify_closed z3_check self None p _ MySolver.new w'
                  Hself eq_refl).
Qed.

Lemma verify_repeatable_witness :
  fst (verify Demo.engine 0%nat (Some 0%nat)
         (snd (verify Demo.engine 0%nat (Some 0%nat) Demo.world)))
  = Raise (AssertionError (verify_msg unsat Demo.sign_vals)).
Proof.
  assert (Hself : instances Demo.world !! 0%nat = Some Sample.p0)
    by (vm_compute; reflexivity).
  assert (Hctx : proof_context (Some 0%nat) Demo.world
                 = Some (0%nat, MySolver.new))
    by (vm_compute; reflexivity).
  rewrite (verify_repeatable Demo.engine 0%nat (Some 0%nat) Sample.p0 0%nat
             MySolver.new Demo.world Hself Hctx).
  vm_compute. reflexivity.
Defined.

(** ** One auxiliary counter for both operators *)

(** X15: [__mul__] by a term and [__add__] draw their auxiliary ids from
    the same counter of the instance, one id per call in the order of the
    calls, while [__mul__] by a number draws none: when the sums of the
    addition can be computed, after a multiplication by a term the
    addition is numbered one higher, and likewise the other way round, and
    after a multiplication by a number the addition has the number it
    would have had without it.  An addition draws its id whether it
    returns or a sum raises: the next multiplication by a term is numbered
    one higher in both cases. *)
Theorem auxiliary_counter_shared float_add self p sv w e other k :
  instances w !! self = Some p ->
  solvers w !! Piecewise.s p = Some sv ->
  let id := Piecewise.id p in
  let a := Piecewise.aux_id p in
  (sums_defined float_add other (Piecewise.vals p) ->
   fst ((x <- __mul__ self (Sym e) ;;
         y <- __add__ float_add self other ;; ret (x, y)) w)
   = Ret (Real (mul_name (Piecewise.name p) id a), Real (add_name id (a + 1)))
   /\ fst ((x <- __add__ float_add self other ;;
            y <- __mul__ self (Sym e) ;; ret (x, y)) w)
      = Ret (Real (add_name id a),
             Real (mul_name (Piecewise.name p) id (a + 1)))
   /\ fst ((__mul__ self (Lit k) ;; __add__ float_add self other) w)
      = Ret (Real (add_name id a)))
  /\ fst (__mul__ self (Sym e) (snd (__add__ float_add self other w)))
     = Ret (Real (mul_name (Piecewise.name p) id (a + 1))).
Proof.
  intros Hself Hsolver id a.
  pose proof (mul_symbolic self p sv w Hself Hsolver e) as Hmul.
  pose proof (add_any self p sv w Hself Hsolver float_add other) as Hadd.
  cbv zeta in Hmul, Hadd.
  assert (Hlater : fst (__mul__ self (Sym e)
                          (snd (__add__ float_add self other w)))
                   = Ret (Real (mul_name (Piecewise.name p) id (a + 1)))).
  { rewrite Hadd. cbn [snd].
    erewrite (mul_symbolic self (set_aux_id (a + 1) p));
      [reflexivity | apply lookup_insert_eq | apply lookup_insert_eq]. }
  split; [|exact Hlater]. intros Hdef.
  assert (Hret : forall aux q,
             Piecewise.vals q = Piecewise.vals p ->
             snd (add_constraints float_add aux other (Piecewise.vals q))
             = None).
  { intros aux q ->. by apply add_constraints_defined. }
  split; [|split].
  - unfold bind at 1. rewrite Hmul. cbv beta iota.
    unfold bind at 1.
    erewrite (add_any self (set_aux_id (a + 1) p));
      [| apply lookup_insert_eq | apply lookup_insert_eq].
    by rewrite Hret.
  - unfold bind at 1. rewrite Hadd, Hret by done. cbv beta iota.
    unfold bind at 1.
    erewrite (mul_symbolic self (set_aux_id (a + 1) p));
      [reflexivity | apply lookup_insert_eq | apply lookup_insert_eq].
  - unfold bind at 1, __mul__, bind at 1.
    destruct (Piecewise.val_def p) as [h|] eqn:Hdef'.
    + rewrite (val_cached self p w Hself h Hdef'). cbv beta iota.
      unfold ret at 1. by rewrite Hadd, Hret.
    + pose proof (val_first self p sv w Hself Hsolver Hdef') as Hval.
      cbv zeta in Hval. rewrite Hval. cbv beta iota. unfold ret at 1.
      erewrite (add_any self (set_val_def _ p));
        [| apply lookup_insert_eq | apply lookup_insert_eq].
      by rewrite Hret.
Qed.

(** On the sign of x a multiplication by x and an addition of 3 are
    numbered 0 and 1.  On the values 1 and 10^400 the addition of the float
    0.5 raises, and the multiplication that follows is numbered 1. *)
Lemma auxiliary_counter_shared_witness :
  sums_defined Demo.exact_add (Lit (PyInt 3)) Demo.sign_vals
  /\ fst ((x <- __mul__ 0%nat (Sym Demo.x) ;;
           y <- __add__ Demo.exact_add 0%nat (Lit (PyInt 3)) ;; ret (x, y))
            Demo.world)
     = Ret (Real "auxPiecewiseMul_p_0,0", Real "auxPiecewiseAdd_0,1")
  /\ fst (__add__ Demo.exact_add 0%nat (Lit (PyFloat (1 # 2))) Demo.world_huge)
     = Raise OverflowError
  /\ fst (__mul__ 0%nat (Sym Demo.x)
            (snd (__add__ Demo.exact_add 0%nat (Lit (PyFloat (1 # 2)))
                    Demo.world_huge)))
     = Ret (Real "auxPiecewiseMul_h_0,1").
Proof.
  assert (Hself : instances Demo.world !! 0%nat = Some Sample.p0)
    by (vm_compute; reflexivity).
  assert (Hsolver : solvers Demo.world !! Piecewise.s Sample.p0
                    = Some MySolver.new)
    by (vm_compute; reflexivity).
  assert (Hdef : sums_defined Demo.exact_add (Lit (PyInt 3))
                              (Piecewise.vals Sample.p0)).
  { apply sums_defined_exact. intros c v Hin. simpl in Hin.
    apply elem_of_cons in Hin as [[= -> ->]|Hin]; [done|].
    by apply list_elem_of_singleton in Hin as [= -> ->]. }
  assert (Hself' : instances Demo.world_huge !! 0%nat
                   = Some (Piecewise.mk 0%nat Demo.huge_vals 0%nat "h" 0%nat
                             None))
    by (vm_compute; reflexivity).
  assert (Hsolver' : solvers Demo.world_huge !! 0%nat = Some MySolver.new)
    by (vm_compute; reflexivity).
  destruct (auxiliary_counter_shared Demo.exact_add 0%nat Sample.p0 MySolver.new
              Demo.world Demo.x (Lit (PyInt 3)) (PyInt 2) Hself Hsolver)
    as [Hboth _].
  destruct (Hboth Hdef) as (Hfirst & _ & _).
  destruct (auxiliary_counter_shared Demo.exact_add 0%nat _ MySolver.new
              Demo.world_huge Demo.x (Lit (PyFloat (1 # 2))) (PyInt 2)
              Hself' Hsolver') as [_ Hlater].
  split; [exact Hdef|]. split; [exact Hfirst|].
  split; [vm_compute; reflexivity | exact Hlater].
Defined.
